(** * must-use-result: a shallow embedding of the neverthrow lint rule

    The rule lives in [rules/must-use-result.ts] and relies on the helpers
    of [utils/ast-helpers.ts].  It inspects a syntax tree handed over by the
    host linter, using node tags, literal names and parent links only.

    Embedding choices:
    - [Node] is the tagged union [Deno.lint.Node], restricted to the tags and
      fields the rule reads; every other tag is [Other].
    - A node reference (what JavaScript compares with [===] and follows with
      [.parent]) is a [Loc]: the node together with the stack of its
      ancestors, nearest first, each with the index of the child that was
      entered.  Two references of one tree denote the same object exactly
      when their index paths agree ([same_node]).
    - The [Set<string>] of [ImportTracker] is a [gset string].
    - Names are byte strings; [toLowerCase] folds the ASCII letters, which
      is all that matters for the search of the ASCII word "result".
    - The host calls the visitors on entering each node, in document order:
      [traverse] lists the references in that order and [run] folds the
      visitors over it. *)

From Stdlib Require Import String Ascii.
From stdpp Require Import base decidable list gmap strings.

Local Open Scope string_scope.
Local Open Scope list_scope.

#[local] Set Warnings "-register-all,-clear-no-such-hyp".

(** ** Syntax trees *)

(** An import specifier carries the name of its [local] identifier, a
    [Literal] its value when that is a string, and [Other] the tag of a
    node the rule never asks about. *)
Inductive Node : Type :=
| Program (body : list Node)
| ImportDeclaration (specifiers : list Node) (source : Node)
| ImportSpecifier (imported local : string)
| ImportDefaultSpecifier (local : string)
| ImportNamespaceSpecifier (local : string)
| Identifier (name : string)
| Literal (value : option string)
| CallExpression (callee : Node) (arguments : list Node)
| NewExpression (callee : Node) (arguments : list Node)
| MemberExpression (object property : Node)
| ReturnStatement (argument : option Node)
| ArrowFunctionExpression (params : list Node) (body : Node)
| FunctionDeclaration (params : list Node) (body : Node)
| FunctionExpression (params : list Node) (body : Node)
| BlockStatement (body : list Node)
| ExpressionStatement (expression : Node)
| Other (type : string) (children : list Node).

(** Children in document order. *)
Definition children (n : Node) : list Node :=
  match n with
  | Program body => body
  | ImportDeclaration specifiers source => specifiers ++ [source]
  | ImportSpecifier _ _ | ImportDefaultSpecifier _
  | ImportNamespaceSpecifier _ | Identifier _ | Literal _ => []
  | CallExpression callee arguments => callee :: arguments
  | NewExpression callee arguments => callee :: arguments
  | MemberExpression object property => [object; property]
  | ReturnStatement argument => option_list argument
  | ArrowFunctionExpression params body => params ++ [body]
  | FunctionDeclaration params body => params ++ [body]
  | FunctionExpression params body => params ++ [body]
  | BlockStatement body => body
  | ExpressionStatement expression => [expression]
  | Other _ kids => kids
  end.

(** ** Node references with parent links *)

Record Frame : Type := mkFrame { fnode : Node; fidx : nat }.

Record Loc : Type := mkLoc { here : Node; up : list Frame }.

(** [node.parent]; the root has none. *)
Definition parent (l : Loc) : option Loc :=
  match up l with
  | [] => None
  | f :: rest => Some (mkLoc (fnode f) rest)
  end.

(** The index path of a reference, nearest index first. *)
Definition path (l : Loc) : list nat := map fidx (up l).

(** Reference equality [a === b] between two nodes of one tree. *)
Definition same_node (a b : Loc) : bool := bool_decide (path a = path b).

(** The reference of the [i]-th child [k] of [l]. *)
Definition child_loc (l : Loc) (i : nat) (k : Node) : Loc :=
  mkLoc k (mkFrame (here l) i :: up l).

(** ** utils/ast-helpers.ts *)

Definition HANDLED_METHODS : list string := ["match"; "unwrapOr"; "_unsafeUnwrap"].

Definition RESULT_METHODS : list string :=
  ["map"; "mapErr"; "andThen"; "orElse"; "asyncAndThen"; "asyncMap";
   "isOk"; "isErr"].

(** [Array.prototype.includes] on an array of strings. *)
Definition includes (xs : list string) (x : string) : bool :=
  bool_decide (x ∈ xs).

(** [String.prototype.includes]. *)
Fixpoint str_includes (needle hay : string) : bool :=
  String.prefix needle hay ||
  match hay with
  | EmptyString => false
  | String _ rest => str_includes needle rest
  end.

Definition lower_ascii (c : ascii) : ascii :=
  let n := nat_of_ascii c in
  if (65 <=? n)%nat && (n <=? 90)%nat then ascii_of_nat (n + 32) else c.

(** [String.prototype.toLowerCase]. *)
Fixpoint toLowerCase (s : string) : string :=
  match s with
  | EmptyString => EmptyString
  | String c rest => String (lower_ascii c) (toLowerCase rest)
  end.

Definition isResultConstructorCall (node : Node) : bool :=
  match node with
  | NewExpression callee _ =>
      match callee with
      | Identifier name => String.eqb name "Ok" || String.eqb name "Err"
      | _ => false
      end
  | CallExpression callee _ =>
      match callee with
      | Identifier name => includes ["ok"; "err"; "okAsync"; "errAsync"] name
      | _ => false
      end
  | _ => false
  end.

Definition getMethodName (node : Node) : option string :=
  match node with
  | MemberExpression _ property =>
      match property with
      | Identifier name => Some name
      | _ => None
      end
  | _ => None
  end.

(** The inner loop of [isInReturnContext]: starting at [checkNode], climb
    while [checkNode] exists and differs from [bodyNode]; answer [true] as
    soon as the parent of [checkNode] is [bodyNode]. *)
Fixpoint reaches_body (bodyNode : Loc) (check_here : Node)
    (check_up : list Frame) : bool :=
  if same_node (mkLoc check_here check_up) bodyNode then false
  else
    match check_up with
    | [] => false
    | f :: rest =>
        if same_node (mkLoc (fnode f) rest) bodyNode then true
        else reaches_body bodyNode (fnode f) rest
    end.

(** The outer loop of [isInReturnContext]; [anc] holds [current] and its
    own ancestors. *)
Fixpoint return_context_loop (node : Loc) (anc : list Frame) : bool :=
  match anc with
  | [] => false
  | f :: rest =>
      let current := mkLoc (fnode f) rest in
      match here current with
      | ReturnStatement _ => true
      | ArrowFunctionExpression params body =>
          let bodyNode := child_loc current (length params) body in
          if reaches_body bodyNode (here node) (up node) then true
          else if same_node bodyNode node then true
          else return_context_loop node rest
      | FunctionDeclaration _ _ | FunctionExpression _ _
      | BlockStatement _ => false
      | _ => return_context_loop node rest
      end
  end.

Definition isInReturnContext (node : Loc) : bool :=
  return_context_loop node (up node).

(** *** ImportTracker *)

Definition specifier_local (specifier : Node) : option string :=
  match specifier with
  | ImportSpecifier _ local => Some local
  | ImportDefaultSpecifier local => Some local
  | ImportNamespaceSpecifier local => Some local
  | _ => None
  end.

Definition add_specifier (imports : gset string) (specifier : Node)
    : gset string :=
  match specifier_local specifier with
  | Some local => {[ local ]} ∪ imports
  | None => imports
  end.

Definition trackImport (node : Node) (imports : gset string) : gset string :=
  match node with
  | ImportDeclaration specifiers source =>
      match source with
      | Literal (Some value) =>
          if String.eqb value "neverthrow"
          then foldl add_specifier imports specifiers
          else imports
      | _ => imports
      end
  | _ => imports
  end.

Definition isNeverthrowImport (imports : gset string) (name : string) : bool :=
  bool_decide (name ∈ imports).

Definition clear (imports : gset string) : gset string := ∅.

(** *** The helpers the rule does not call *)

Definition ALL_RESULT_METHODS : list string := HANDLED_METHODS ++ RESULT_METHODS.

Definition NEVERTHROW_IMPORTS : list string :=
  ["Result"; "Ok"; "Err"; "ok"; "err"; "ResultAsync"; "okAsync"; "errAsync"].

Definition isResultIdentifier (node : Node) : bool :=
  match node with
  | Identifier name =>
      existsb (fun pattern => str_includes pattern name) NEVERTHROW_IMPORTS
  | _ => false
  end.

Definition isResultMethodCall (node : Node) : bool :=
  match node with
  | MemberExpression _ property =>
      match property with
      | Identifier name => includes ALL_RESULT_METHODS name
      | _ => false
      end
  | _ => false
  end.

Definition isHandledMethodCall (node : Node) : bool :=
  match node with
  | MemberExpression _ property =>
      match property with
      | Identifier name => includes HANDLED_METHODS name
      | _ => false
      end
  | _ => false
  end.

(** The test [methodName && ALL_RESULT_METHODS.includes(methodName)]. *)
Definition counts_as_result_method (methodName : option string) : bool :=
  match methodName with
  | Some name => negb (String.eqb name "") && includes ALL_RESULT_METHODS name
  | None => false
  end.

(** The loop of [hasResultMethodChain], which descends through the objects
    of member accesses and of calls on member accesses; the second argument
    is [resultMethodCount]. *)
Fixpoint result_method_chain_loop (current : Node) (resultMethodCount : nat)
    : nat :=
  match current with
  | CallExpression callee _ =>
      match callee with
      | MemberExpression object _ =>
          result_method_chain_loop object
            (if counts_as_result_method (getMethodName callee)
             then S resultMethodCount else resultMethodCount)
      | _ => resultMethodCount
      end
  | MemberExpression object _ =>
      result_method_chain_loop object
        (if counts_as_result_method (getMethodName current)
         then S resultMethodCount else resultMethodCount)
  | _ => resultMethodCount
  end.

Definition hasResultMethodChain (node : Node) : bool :=
  (1 <=? result_method_chain_loop node 0)%nat.

(** ** rules/must-use-result.ts *)

(** The loop of [isImmediatelyHandled]; [anc] holds [current] and its own
    ancestors.  [callParent.callee === current] compares the callee of the
    parent call with the member access the walk came through. *)
Fixpoint immediately_handled_loop (anc : list Frame) : bool :=
  match anc with
  | [] => false
  | f :: rest =>
      let current := mkLoc (fnode f) rest in
      match here current with
      | MemberExpression _ _ =>
          let handled :=
            match getMethodName (here current) with
            | Some methodName =>
                includes HANDLED_METHODS methodName &&
                match parent current with
                | Some callParent =>
                    match here callParent with
                    | CallExpression callee _ =>
                        same_node (child_loc callParent 0 callee) current
                    | _ => false
                    end
                | None => false
                end
            | None => false
            end in
          if handled then true else immediately_handled_loop rest
      | CallExpression _ _ => immediately_handled_loop rest
      | _ => false
      end
  end.

Definition isImmediatelyHandled (node : Loc) : bool :=
  immediately_handled_loop (up node).

Record Diagnostic : Type := mkDiagnostic { anchor : list nat; message : string }.

#[global] Instance Diagnostic_eq_dec : EqDecision Diagnostic.
Proof. solve_decision. Defined.

(** The state the visitors share: the tracker created by [create] and the
    diagnostics handed to [context.report] so far. *)
Record State : Type := mkState {
  neverthrowImports : gset string;
  reports : list Diagnostic
}.

Definition report (node : Loc) (msg : string) (st : State) : State :=
  mkState (neverthrowImports st) (reports st ++ [mkDiagnostic (path node) msg]).

(** The chain of [callee.name !== "..."] tests of the heuristic branch. *)
Definition not_excluded (name : string) : bool :=
  negb (String.eqb name "isResultConstructorCall") &&
  negb (String.eqb name "isResultMethodCall") &&
  negb (String.eqb name "isResultIdentifier") &&
  negb (String.eqb name "hasResultMethodChain") &&
  negb (String.eqb name "checkResult") &&
  negb (String.eqb name "hasResult") &&
  negb (String.eqb name "processResult").

Definition visit_ImportDeclaration (node : Loc) (st : State) : State :=
  mkState (trackImport (here node) (neverthrowImports st)) (reports st).

Definition visit_CallExpression (node : Loc) (st : State) : State :=
  if isInReturnContext node then st
  else if isImmediatelyHandled node then st
  else
    match here node with
    | CallExpression callee _ =>
        let st1 :=
          match callee with
          | Identifier name =>
              if includes ["ok"; "err"; "okAsync"; "errAsync"] name &&
                 isNeverthrowImport (neverthrowImports st) name
              then report node
                     "Result must be handled with either match, unwrapOr, or _unsafeUnwrap"
                     st
              else st
          | _ => st
          end in
        match callee with
        | Identifier name =>
            if str_includes "result" (toLowerCase name) &&
               not_excluded name
            then report node
                   "Result must be handled with either match, unwrapOr, or _unsafeUnwrap"
                   st1
            else st1
        | _ => st1
        end
    | _ => st
    end.

Definition visit_NewExpression (node : Loc) (st : State) : State :=
  if isInReturnContext node then st
  else if isImmediatelyHandled node then st
  else if isResultConstructorCall (here node)
  then report node
         "Result must be handled with either match, unwrapOr, or _unsafeUnwrap"
         st
  else st.

(** The statement visitor reports nothing on any of its paths. *)
Definition visit_ExpressionStatement (node : Loc) (st : State) : State :=
  match here node with
  | ExpressionStatement expression =>
      if isInReturnContext (child_loc node 0 expression) then st
      else
        match expression with
        | CallExpression (Identifier name) _ =>
            if includes ["ok"; "err"; "okAsync"; "errAsync"] name &&
               isNeverthrowImport (neverthrowImports st) name
            then st
            else st
        | _ => st
        end
  | _ => st
  end.

Definition visit_Program (node : Loc) (st : State) : State :=
  mkState (clear (neverthrowImports st)) (reports st).

(** Dispatch on the tag of the node being entered. *)
Definition visit (st : State) (node : Loc) : State :=
  match here node with
  | ImportDeclaration _ _ => visit_ImportDeclaration node st
  | CallExpression _ _ => visit_CallExpression node st
  | NewExpression _ _ => visit_NewExpression node st
  | ExpressionStatement _ => visit_ExpressionStatement node st
  | Program _ => visit_Program node st
  | _ => st
  end.

(** References of a subtree in document order (node before its children). *)
Fixpoint traverse (anc : list Frame) (n : Node) {struct n} : list Loc :=
  let kids :=
    fix kids (i : nat) (ks : list Node) {struct ks} : list Loc :=
      match ks with
      | [] => []
      | k :: ks' => traverse (mkFrame n i :: anc) k ++ kids (S i) ks'
      end in
  let sub (i : nat) (k : Node) := traverse (mkFrame n i :: anc) k in
  mkLoc n anc ::
  match n with
  | Program body => kids 0 body
  | ImportDeclaration specifiers source =>
      kids 0 specifiers ++ sub (length specifiers) source
  | ImportSpecifier _ _ | ImportDefaultSpecifier _
  | ImportNamespaceSpecifier _ | Identifier _ | Literal _ => []
  | CallExpression callee arguments => sub 0 callee ++ kids 1 arguments
  | NewExpression callee arguments => sub 0 callee ++ kids 1 arguments
  | MemberExpression object property => sub 0 object ++ sub 1 property
  | ReturnStatement None => []
  | ReturnStatement (Some argument) => sub 0 argument
  | ArrowFunctionExpression params body =>
      kids 0 params ++ sub (length params) body
  | FunctionDeclaration params body =>
      kids 0 params ++ sub (length params) body
  | FunctionExpression params body =>
      kids 0 params ++ sub (length params) body
  | BlockStatement body => kids 0 body
  | ExpressionStatement expression => sub 0 expression
  | Other _ kids' => kids 0 kids'
  end.

Definition run_locs (st : State) (ls : list Loc) : State := foldl visit st ls.

(** One traversal of a tree by a rule instance whose state is [st]. *)
Definition run (st : State) (root : Node) : State :=
  run_locs st (traverse [] root).

(** Linting one compilation unit with a fresh rule instance. *)
Definition lint (root : Node) : list Diagnostic :=
  reports (run (mkState ∅ []) root).

(** Number of diagnostics anchored at the node of index path [p]. *)
Definition count_at (p : list nat) (ds : list Diagnostic) : nat :=
  length (filter (fun d => anchor d = p) ds).

(** * Definitions for the proofs

    Nothing below is part of the rule: these definitions name what the
    lemmas and the claims speak about. *)

(** ** The traversal, seen through [children] *)

Fixpoint traverse_kids (n : Node) (anc : list Frame) (i : nat)
    (ks : list Node) : list Loc :=
  match ks with
  | [] => []
  | k :: ks' => traverse (mkFrame n i :: anc) k ++ traverse_kids n anc (S i) ks'
  end.

(** ** The two parent walks, read off the ancestor stack *)

Definition is_boundary (n : Node) : bool :=
  match n with
  | FunctionDeclaration _ _ | FunctionExpression _ _ | BlockStatement _ => true
  | _ => false
  end.

Definition is_return (n : Node) : bool :=
  match n with ReturnStatement _ => true | _ => false end.

Definition is_arrow (n : Node) : bool :=
  match n with ArrowFunctionExpression _ _ => true | _ => false end.

(** The frame of an arrow function entered through its body. *)
Definition enters_body (f : Frame) : bool :=
  match fnode f with
  | ArrowFunctionExpression params _ => bool_decide (fidx f = length params)
  | _ => false
  end.

(** [isInReturnContext] as a scan of the ancestor stack. *)
Fixpoint delegated (anc : list Frame) : bool :=
  match anc with
  | [] => false
  | f :: rest =>
      if is_return (fnode f) then true
      else if is_arrow (fnode f) then enters_body f || delegated rest
      else if is_boundary (fnode f) then false
      else delegated rest
  end.

(** A method call applied to the node below, [obj.m(args)]: the node is the
    object of a member access which is the callee of a call. *)
Definition step_frames (obj : Node) (m : string) (args : list Node)
    : list Frame :=
  [mkFrame (MemberExpression obj (Identifier m)) 0;
   mkFrame (CallExpression (MemberExpression obj (Identifier m)) args) 0].

(** [method_steps ms fs]: the frames [fs] are the method calls named [ms],
    innermost first. *)
Inductive method_steps : list string → list Frame → Prop :=
| method_steps_nil : method_steps [] []
| method_steps_cons obj m args ms fs :
    method_steps ms fs →
    method_steps (m :: ms) (step_frames obj m args ++ fs).

(** ** What one visit adds *)

Definition MESSAGE : string :=
  "Result must be handled with either match, unwrapOr, or _unsafeUnwrap".

Definition is_factory_name (name : string) : bool :=
  includes ["ok"; "err"; "okAsync"; "errAsync"] name.

Definition is_heuristic_name (name : string) : bool :=
  str_includes "result" (toLowerCase name) && not_excluded name.

(** The visit of [node] reports it. *)
Definition flagged (imports : gset string) (node : Loc) : bool :=
  negb (isInReturnContext node) && negb (isImmediatelyHandled node) &&
  match here node with
  | CallExpression (Identifier name) _ =>
      is_factory_name name && isNeverthrowImport imports name
      || is_heuristic_name name
  | NewExpression _ _ => isResultConstructorCall (here node)
  | _ => false
  end.

(** The tracker after the visit of [node]. *)
Definition visit_imports (imports : gset string) (node : Loc) : gset string :=
  match here node with
  | ImportDeclaration _ _ => trackImport (here node) imports
  | Program _ => ∅
  | _ => imports
  end.

(** ** What a traversal adds *)

(** The diagnostics of the visits of [ls], the tracker holding [imports]
    before the first one. *)
Fixpoint emitted (imports : gset string) (ls : list Loc) : list Diagnostic :=
  match ls with
  | [] => []
  | l :: ls' =>
      (if flagged imports l then [mkDiagnostic (path l) MESSAGE] else [])
      ++ emitted (visit_imports imports l) ls'
  end.

(** The tracker when the node that follows [pre] is entered, the unit being
    linted by a fresh rule instance. *)
Definition tracker_before (pre : list Loc) : gset string :=
  neverthrowImports (run_locs (mkState ∅ []) pre).

(** ** Classification and positions *)

(** Result-producing constructs: a factory call whose name the tracker
    holds, or a construction of [Ok] or [Err]. *)
Definition producing (imports : gset string) (n : Node) : bool :=
  match n with
  | CallExpression (Identifier name) _ =>
      is_factory_name name && isNeverthrowImport imports name
  | NewExpression (Identifier name) _ =>
      String.eqb name "Ok" || String.eqb name "Err"
  | _ => false
  end.

(** A call picked by the naming heuristic. *)
Definition heuristic_call (n : Node) : bool :=
  match n with
  | CallExpression (Identifier name) _ => is_heuristic_name name
  | _ => false
  end.

(** The ancestors of an expression that is a statement of its own in the
    statement list of the unit or of a block. *)
Definition statement_position (anc : list Frame) : bool :=
  match anc with
  | f :: g :: rest =>
      match fnode f, fnode g, rest with
      | ExpressionStatement _, BlockStatement _, _ => true
      | ExpressionStatement _, Program _, [] => true
      | _, _, _ => false
      end
  | _ => false
  end.

Definition bare_statement (node : Loc) : bool := statement_position (up node).

Definition EXCLUDED_NAMES : list string :=
  ["isResultConstructorCall"; "isResultMethodCall"; "isResultIdentifier";
   "hasResultMethodChain"; "checkResult"; "hasResult"; "processResult"].

(** The positions that exempt a node: on the direct path to a return
    statement or to the expression body of an arrow function, ... *)
Definition in_delegated_position (anc : list Frame) : Prop :=
  ∃ ws f rest,
    anc = ws ++ f :: rest ∧
    Forall (λ w, is_boundary (fnode w) = false) ws ∧
    (is_return (fnode f) = true ∨ enters_body f = true).

(** ... or followed by transforming method calls and then by an invoked
    handling method. *)
Definition followed_by_handler (anc : list Frame) : Prop :=
  ∃ ms h fs rest,
    anc = fs ++ rest ∧
    method_steps (ms ++ [h]) fs ∧
    Forall (λ m, m ∈ RESULT_METHODS) ms ∧
    h ∈ HANDLED_METHODS.

(** ** Several units through one rule instance *)

(** The units are traversed one after the other by the same visitors, so
    the tracker of one unit is what the next one starts with; each unit
    has its own list of diagnostics. *)
Fixpoint lint_units (imports : gset string) (units : list Node)
    : list (list Diagnostic) :=
  match units with
  | [] => []
  | root :: units' =>
      let st := run (mkState imports []) root in
      reports st :: lint_units (neverthrowImports st) units'
  end.

(** ** For the properties beyond the claims *)

(** [f(args)] and [obj.m(args)]. *)
Definition call (f : string) (args : list Node) : Node :=
  CallExpression (Identifier f) args.

Definition method (obj : Node) (m : string) (args : list Node) : Node :=
  CallExpression (MemberExpression obj (Identifier m)) args.

(** [base.m1(args1). ... .mk(argsk)], the steps given innermost first. *)
Fixpoint method_chain (base : Node) (steps : list (string * list Node))
    : Node :=
  match steps with
  | [] => base
  | (m, args) :: steps' => method_chain (method base m args) steps'
  end.

Definition is_call (n : Node) : bool :=
  match n with CallExpression _ _ => true | _ => false end.

(** The nodes [isImmediatelyHandled] climbs through. *)
Definition is_chain_link (n : Node) : bool :=
  match n with
  | MemberExpression _ _ | CallExpression _ _ => true
  | _ => false
  end.

(** [decl] is an import declaration from "neverthrow" one of whose
    specifiers binds the local name [name]. *)
Definition binds (decl : Node) (name : string) : Prop :=
  ∃ specifiers specifier,
    decl = ImportDeclaration specifiers (Literal (Some "neverthrow")) ∧
    specifier ∈ specifiers ∧ specifier_local specifier = Some name.

(** A member access whose property names one of [RESULT_METHODS]. *)
Definition names_transforming_method (node : Node) : bool :=
  match getMethodName node with
  | Some m => includes RESULT_METHODS m
  | None => false
  end.

(** The five patterns of [NEVERTHROW_IMPORTS] that none of the others
    contains. *)
Definition MINIMAL_PATTERNS : list string := ["Result"; "Ok"; "Err"; "ok"; "err"].

(** * Sample units *)

Definition neverthrow_import : Node :=
  ImportDeclaration
    [ImportSpecifier "ok" "ok"; ImportSpecifier "err" "err";
     ImportSpecifier "okAsync" "okAsync"; ImportSpecifier "errAsync" "errAsync";
     ImportSpecifier "Ok" "Ok"; ImportSpecifier "Err" "Err"]
    (Literal (Some "neverthrow")).

(** [import {...} from "neverthrow"; ok(x); err(y); new Ok(z);] *)
Definition unit_three : Node :=
  Program [neverthrow_import;
           ExpressionStatement (call "ok" [Identifier "x"]);
           ExpressionStatement (call "err" [Identifier "y"]);
           ExpressionStatement (NewExpression (Identifier "Ok") [Identifier "z"])].

(** [ok(x)], [ok(x).map(f)] and [ok(x).map(f).andThen(g)]. *)
Definition chain0 : Node := call "ok" [Identifier "x"].

Definition chain1 : Node := method chain0 "map" [Identifier "f"].

Definition chain2 : Node := method chain1 "andThen" [Identifier "g"].

(** [ok(x).map(f).andThen(g).unwrapOr(d);] after the import. *)
Definition unit_chain_handled : Node :=
  Program [neverthrow_import;
           ExpressionStatement (method chain2 "unwrapOr" [Identifier "d"])].

(** [ok(x).map(f).andThen(g).isOk();] after the import. *)
Definition unit_chain_query : Node :=
  Program [neverthrow_import; ExpressionStatement (method chain2 "isOk" [])].

(** The reference entered at step [k] of the traversal of [root]. *)
Definition visited (root : Node) (k : nat) : Loc :=
  default (mkLoc root []) (traverse [] root !! k).

Definition before (root : Node) (k : nat) : list Loc := take k (traverse [] root).

Definition after (root : Node) (k : nat) : list Loc :=
  drop (S k) (traverse [] root).

(** [ok(x);] with no import at all. *)
Definition unit_unbound : Node :=
  Program [ExpressionStatement (call "ok" [Identifier "x"])].

(** [getResult(); checkResult(t);] *)
Definition unit_heuristic : Node :=
  Program [ExpressionStatement (call "getResult" []);
           ExpressionStatement (call "checkResult" [Identifier "t"])].

(** [function f() { return ok(x).map(g); }] after the import. *)
Definition unit_return : Node :=
  Program [neverthrow_import;
           FunctionDeclaration []
             (BlockStatement
                [ReturnStatement
                   (Some (method (call "ok" [Identifier "x"]) "map"
                            [Identifier "g"]))])].

(** [const f = (a) => ok(a).map(g);] after the import. *)
Definition unit_arrow : Node :=
  Program [neverthrow_import;
           Other "VariableDeclaration"
             [Other "VariableDeclarator"
                [Identifier "f";
                 ArrowFunctionExpression [Identifier "a"]
                   (method (call "ok" [Identifier "a"]) "map"
                      [Identifier "g"])]]].

(** [function f(c) { if (c) { ok(1); } while (c) err(2); return ok(3); }]
    after the import. *)
Definition if_body : Node :=
  BlockStatement [ExpressionStatement (call "ok" [Literal None])].

Definition function_body : Node :=
  BlockStatement
    [Other "IfStatement" [Identifier "c"; if_body];
     Other "WhileStatement"
       [Identifier "c"; ExpressionStatement (call "err" [Literal None])];
     ReturnStatement (Some (call "ok" [Literal None]))].

Definition unit_conditional : Node :=
  Program [neverthrow_import;
           FunctionDeclaration [Identifier "c"] function_body].

(** [function f() { return getResult(); } getResult().unwrapOr(d);] *)
Definition unit_heuristic_exempt : Node :=
  Program [FunctionDeclaration []
             (BlockStatement [ReturnStatement (Some (call "getResult" []))]);
           ExpressionStatement
             (method (call "getResult" []) "unwrapOr" [Identifier "d"])].

(** [import { ok } from "neverthrow"; ok(1);] and [ok(2);] *)
Definition unit_importing : list Node :=
  [ImportDeclaration [ImportSpecifier "ok" "ok"] (Literal (Some "neverthrow"));
   ExpressionStatement (call "ok" [Literal None])].

Definition unit_plain : list Node :=
  [ExpressionStatement (call "ok" [Literal None])].

(** [ok(1); import { ok } from "neverthrow";]: the import is recorded only
    once the traversal reaches it. *)
Definition unit_late_import : Node :=
  Program [ExpressionStatement (call "ok" [Literal None]);
           ImportDeclaration [ImportSpecifier "ok" "ok"]
             (Literal (Some "neverthrow"))].

(** [function f() { return ok(x).isOk(); }] after the import. *)
Definition unit_return_query : Node :=
  Program [neverthrow_import;
           FunctionDeclaration []
             (BlockStatement [ReturnStatement (Some (method chain0 "isOk" []))])].

(** [function f(c) { if (c) { ok(1).unwrapOr(0); } return ok(2); }] after
    the import. *)
Definition if_body_handled : Node :=
  BlockStatement
    [ExpressionStatement
       (method (call "ok" [Literal None]) "unwrapOr" [Literal None])].

Definition unit_conditional_handled : Node :=
  Program [neverthrow_import;
           FunctionDeclaration [Identifier "c"]
             (BlockStatement
                [Other "IfStatement" [Identifier "c"; if_body_handled];
                 ReturnStatement (Some (call "ok" [Literal None]))])].

(** [import * as neverthrow from "neverthrow"; neverthrow.ok(v);] *)
Definition unit_namespace : Node :=
  Program [ImportDeclaration [ImportNamespaceSpecifier "neverthrow"]
             (Literal (Some "neverthrow"));
           ExpressionStatement
             (method (Identifier "neverthrow") "ok" [Identifier "v"])].

(** [import { ok as success, Err as ErrorClass } from "neverthrow";
    success(v); new ErrorClass(e);] *)
Definition alias_import : Node :=
  ImportDeclaration
    [ImportSpecifier "ok" "success"; ImportSpecifier "Err" "ErrorClass"]
    (Literal (Some "neverthrow")).

Definition unit_alias : Node :=
  Program [alias_import;
           ExpressionStatement (call "success" [Identifier "v"]);
           ExpressionStatement
             (NewExpression (Identifier "ErrorClass") [Identifier "e"])].

(** [import { ok } from "some-other-library";] *)
Definition other_import : Node :=
  ImportDeclaration [ImportSpecifier "ok" "ok"]
    (Literal (Some "some-other-library")).

(** [const f = (a = ok(1)) => a;] after the import. *)
Definition default_value : Node :=
  Other "AssignmentPattern" [Identifier "a"; call "ok" [Literal None]].

Definition arrow_with_default : Node :=
  ArrowFunctionExpression [default_value] (Identifier "a").

Definition unit_arrow_param : Node :=
  Program [neverthrow_import;
           Other "VariableDeclaration"
             [Other "VariableDeclarator" [Identifier "f"; arrow_with_default]]].

(** [ok(x).unwrapOr;] after the import: the method is named, not called. *)
Definition unit_referenced : Node :=
  Program [neverthrow_import;
           ExpressionStatement
             (MemberExpression chain0 (Identifier "unwrapOr"))].

(** [foo(ok(x)).unwrapOr(d);] after the import. *)
Definition unit_argument : Node :=
  Program [neverthrow_import;
           ExpressionStatement
             (method (call "foo" [chain0]) "unwrapOr" [Identifier "d"])].

(** [foo(ok(x));] after the import. *)
Definition unit_passed : Node :=
  Program [neverthrow_import; ExpressionStatement (call "foo" [chain0])].

(** * Two claims as they are written *)

(** C3 as it is written, with no condition on what encloses the chain. *)
Definition every_query_chain_reported : Prop :=
  ∀ root pre node post ms t fs rest,
    traverse [] root = pre ++ node :: post →
    producing (tracker_before pre) (here node) = true →
    up node = fs ++ rest →
    method_steps (ms ++ [t]) fs →
    Forall (λ m, m ∈ RESULT_METHODS) ms →
    t ∉ HANDLED_METHODS →
    count_at (path node) (lint root) = 1.

(** Tags of the conditional and loop statements. *)
Definition CONDITIONAL_OR_LOOP : list string :=
  ["IfStatement"; "SwitchStatement"; "ForStatement"; "ForInStatement";
   "ForOfStatement"; "WhileStatement"; "DoWhileStatement"].

Definition inside_conditional_or_loop (anc : list Frame) : Prop :=
  ∃ f tag kids,
    f ∈ anc ∧ fnode f = Other tag kids ∧ tag ∈ CONDITIONAL_OR_LOOP.

(** C5 as it is written, with no condition on what follows the call. *)
Definition every_conditional_call_reported : Prop :=
  ∀ root pre node post ws b rest,
    traverse [] root = pre ++ node :: post →
    producing (tracker_before pre) (here node) = true →
    inside_conditional_or_loop (up node) →
    up node = ws ++ b :: rest →
    Forall (λ w, is_return (fnode w) = false ∧ enters_body w = false) ws →
    is_boundary (fnode b) = true →
    count_at (path node) (lint root) = 1.

(** * Lemmas *)

(** ** The sample units, linted *)

Example lint_unit_three :
  lint unit_three =
    [mkDiagnostic [0; 1] "Result must be handled with either match, unwrapOr, or _unsafeUnwrap";
     mkDiagnostic [0; 2] "Result must be handled with either match, unwrapOr, or _unsafeUnwrap";
     mkDiagnostic [0; 3] "Result must be handled with either match, unwrapOr, or _unsafeUnwrap"].
Proof. vm_compute. reflexivity. Qed.

Example lint_unit_chain_handled : lint unit_chain_handled = [].
Proof. vm_compute. reflexivity. Qed.

Example lint_unit_chain_query :
  lint unit_chain_query =
    [mkDiagnostic [0; 0; 0; 0; 0; 0; 0; 1]
       "Result must be handled with either match, unwrapOr, or _unsafeUnwrap"].
Proof. vm_compute. reflexivity. Qed.

(** ** Induction on trees through their children *)

Section Node_induction.

Variable P : Node → Prop.

Hypothesis step : ∀ n, Forall P (children n) → P n.

Lemma Node_children_ind : ∀ n, P n.
Proof.
  fix IH 1. intros n. apply step.
  destruct n as [b|sp src| | | | | |c args|c args|o p|arg|ps b|ps b|ps b|b|e|t ks];
    simpl; repeat first
      [ apply Forall_nil_2
      | apply Forall_app_2
      | apply Forall_cons_2; [apply IH|] ];
    try (destruct arg; simpl; repeat constructor; apply IH);
    match goal with
    | |- Forall P ?l => induction l; constructor; [apply IH | assumption]
    end.
Qed.

End Node_induction.

(** ** The traversal lists every node once, ancestors included *)

Lemma traverse_kids_app n anc i ks1 ks2 :
  traverse_kids n anc i (ks1 ++ ks2) =
  traverse_kids n anc i ks1 ++ traverse_kids n anc (i + length ks1) ks2.
Proof.
  revert i. induction ks1 as [|k ks1 IH]; intros i; simpl.
  - by rewrite Nat.add_0_r.
  - rewrite IH, <- app_assoc. do 3 f_equal. lia.
Qed.

Lemma traverse_unfold anc n :
  traverse anc n = mkLoc n anc :: traverse_kids n anc 0 (children n).
Proof.
  assert (kids_eq : ∀ ks i,
    (fix kids (i : nat) (ks : list Node) {struct ks} : list Loc :=
       match ks with
       | [] => []
       | k :: ks' => traverse (mkFrame n i :: anc) k ++ kids (S i) ks'
       end) i ks = traverse_kids n anc i ks).
  { induction ks as [|k ks IH]; intros i; simpl; [done|]. by rewrite IH. }
  destruct n as [b|sp src| | | | | |c args|c args|o p|[arg|]|ps b|ps b|ps b|b|e|t ks];
    simpl; rewrite ?traverse_kids_app, ?kids_eq; simpl;
    rewrite ?app_nil_r; reflexivity.
Qed.

Lemma elem_of_traverse_kids l n anc i ks :
  l ∈ traverse_kids n anc i ks →
  ∃ j k, ks !! j = Some k ∧ l ∈ traverse (mkFrame n (i + j) :: anc) k.
Proof.
  revert i. induction ks as [|k ks IH]; intros i; simpl.
  - by intros ?%elem_of_nil.
  - intros [Hl|Hl]%elem_of_app.
    + exists 0, k. by rewrite Nat.add_0_r.
    + destruct (IH _ Hl) as (j & k' & Hj & Hk).
      exists (S j), k'. split; [done|]. by replace (i + S j) with (S i + j) by lia.
Qed.

Lemma traverse_kids_elem_of l n anc i ks j k :
  ks !! j = Some k → l ∈ traverse (mkFrame n (i + j) :: anc) k →
  l ∈ traverse_kids n anc i ks.
Proof.
  revert i j. induction ks as [|k' ks IH]; intros i [|j]; simpl; try done.
  - intros [= ->]. rewrite Nat.add_0_r. set_solver.
  - intros Hj Hl. apply elem_of_app. right. apply (IH (S i) j Hj).
    by replace (S i + j) with (i + S j) by lia.
Qed.

(** Every reference listed below [anc] extends [anc]. *)
Lemma traverse_up l anc n :
  l ∈ traverse anc n → ∃ pre, up l = pre ++ anc.
Proof.
  revert anc l. induction n as [n IH] using Node_children_ind. intros anc l.
  rewrite traverse_unfold. intros [->|Hl]%elem_of_cons.
  - by exists [].
  - destruct (elem_of_traverse_kids _ _ _ _ _ Hl) as (j & k & Hj & Hk).
    rewrite Forall_lookup in IH.
    destruct (IH _ _ Hj _ _ Hk) as [pre Hpre].
    exists (pre ++ [mkFrame n (0 + j)]). by rewrite <- app_assoc.
Qed.

Lemma traverse_up_child l anc n i k :
  l ∈ traverse (mkFrame n i :: anc) k →
  ∃ pre, up l = pre ++ mkFrame n i :: anc.
Proof. apply traverse_up. Qed.

(** Paths that extend a common base through different children differ. *)
Lemma path_branch_ne (q1 q2 : list nat) i1 i2 base :
  i1 ≠ i2 → q1 ++ i1 :: base ≠ q2 ++ i2 :: base.
Proof.
  intros Hne Heq.
  change (q1 ++ [i1] ++ base = q2 ++ [i2] ++ base) in Heq.
  rewrite !app_assoc in Heq. apply app_inv_tail in Heq.
  apply app_inj_tail in Heq. naive_solver.
Qed.

Lemma path_longer_ne (q : list nat) i base : q ++ i :: base ≠ base.
Proof.
  intros Heq. apply (f_equal length) in Heq.
  rewrite length_app in Heq. simpl in Heq. lia.
Qed.

(** No two references of a traversal share an index path. *)
Lemma traverse_NoDup anc n : NoDup (path <$> traverse anc n).
Proof.
  revert anc. induction n as [n IH] using Node_children_ind. intros anc.
  rewrite traverse_unfold, fmap_cons. apply NoDup_cons. split.
  - intros (l & Hp & Hl)%list_elem_of_fmap.
    destruct (elem_of_traverse_kids _ _ _ _ _ Hl) as (j & k & _ & Hk).
    destruct (traverse_up_child _ _ _ _ _ Hk) as [pre Hpre].
    unfold path in Hp. simpl in Hp. rewrite Hpre, map_app in Hp. simpl in Hp.
    symmetry in Hp. by apply path_longer_ne in Hp.
  - generalize 0 as i. revert IH.
    induction (children n) as [|k ks IHks]; intros IH i; simpl.
    + constructor.
    + apply Forall_cons in IH as [IHk IH].
      rewrite fmap_app. apply NoDup_app. split_and!.
      * apply IHk.
      * intros p (l1 & -> & Hl1)%list_elem_of_fmap (l2 & Hp & Hl2)%list_elem_of_fmap.
        destruct (traverse_up_child _ _ _ _ _ Hl1) as [pre1 Hpre1].
        destruct (elem_of_traverse_kids _ _ _ _ _ Hl2) as (j & k' & _ & Hk').
        destruct (traverse_up_child _ _ _ _ _ Hk') as [pre2 Hpre2].
        unfold path in Hp. rewrite Hpre1, Hpre2, !map_app in Hp. simpl in Hp.
        apply path_branch_ne in Hp; [done|lia].
      * by apply IHks.
Qed.

(** The ancestors of a listed reference are listed as well. *)
Lemma traverse_ancestor l anc n a f b :
  l ∈ traverse anc n → up l = a ++ f :: b ++ anc →
  mkLoc (fnode f) (b ++ anc) ∈ traverse anc n.
Proof.
  revert anc l a f b. induction n as [n IH] using Node_children_ind.
  intros anc l a f b. rewrite traverse_unfold.
  intros [->|Hl]%elem_of_cons Hup.
  - simpl in Hup. exfalso.
    apply (f_equal length) in Hup. rewrite !length_app in Hup. simpl in Hup.
    rewrite length_app in Hup. lia.
  - destruct (elem_of_traverse_kids _ _ _ _ _ Hl) as (j & k & Hj & Hk).
    destruct (traverse_up_child _ _ _ _ _ Hk) as [pre Hpre].
    rewrite Forall_lookup in IH.
    destruct b as [|fb b _] using rev_ind.
    + simpl in *. rewrite Hpre in Hup.
      change (pre ++ [mkFrame n (0 + j)] ++ anc = a ++ [f] ++ anc) in Hup.
      rewrite !app_assoc in Hup. apply app_inv_tail, app_inj_tail in Hup.
      destruct Hup as [_ <-]. simpl. set_solver.
    + rewrite Hpre in Hup.
      assert (fb = mkFrame n (0 + j)) as ->.
      { change (pre ++ [mkFrame n (0 + j)] ++ anc
                = a ++ [f] ++ (b ++ [fb]) ++ anc) in Hup.
        rewrite !app_assoc in Hup. apply app_inv_tail, app_inj_tail in Hup.
        naive_solver. }
      apply elem_of_cons. right.
      apply (traverse_kids_elem_of _ _ _ _ _ j k Hj).
      rewrite <- app_assoc. simpl.
      apply (IH _ _ Hj _ l a f b Hk).
      rewrite Hpre, Hup, <- !app_assoc. reflexivity.
Qed.

(** ** The walk of [isInReturnContext] *)

Lemma same_node_spec a b : same_node a b = true ↔ path a = path b.
Proof. unfold same_node. apply bool_decide_eq_true. Qed.

Lemma reaches_body_short bodyNode h u :
  length u < length (path bodyNode) → reaches_body bodyNode h u = false.
Proof.
  revert h. induction u as [|f u IH]; intros h Hlen; simpl.
  - unfold same_node, path at 1. simpl. case_bool_decide as Hp; [|done].
    rewrite <- Hp in Hlen. simpl in Hlen. lia.
  - simpl in Hlen. unfold same_node at 1, path at 1. simpl.
    case_bool_decide as Hp.
    { rewrite <- Hp in Hlen. simpl in Hlen. rewrite length_map in Hlen. lia. }
    unfold same_node at 1, path at 1. simpl. case_bool_decide as Hq.
    { rewrite <- Hq in Hlen. rewrite length_map in Hlen. lia. }
    apply IH. lia.
Qed.

Lemma same_node_length a b :
  length (up a) ≠ length (up b) → same_node a b = false.
Proof.
  intros Hlen. apply bool_decide_eq_false_2. intros Heq.
  apply (f_equal length) in Heq. unfold path in Heq.
  by rewrite !length_map in Heq.
Qed.

Lemma same_node_sibling h1 h2 f1 f2 rest :
  same_node (mkLoc h1 (f1 :: rest)) (mkLoc h2 (f2 :: rest))
  = bool_decide (fidx f1 = fidx f2).
Proof.
  unfold same_node, path. simpl. apply bool_decide_ext.
  split; [by intros [= ?] | by intros ->].
Qed.

(** The inner loop answers [true] exactly when a strict ancestor of the
    starting node is the child of [f] numbered like [bodyNode]. *)
Lemma reaches_body_spec h pre f rest body i :
  reaches_body (mkLoc body (mkFrame (fnode f) i :: rest)) h (pre ++ f :: rest)
  = negb (bool_decide (pre = [])) && bool_decide (fidx f = i).
Proof.
  revert h. induction pre as [|g pre IH]; intros h; simpl.
  - rewrite same_node_sibling. simpl. case_bool_decide; [done|].
    rewrite same_node_length by (simpl; lia).
    apply reaches_body_short. unfold path. simpl. rewrite length_map. lia.
  - rewrite same_node_length by (simpl; rewrite length_app; simpl; lia).
    rewrite IH. destruct pre as [|g' pre]; simpl.
    + rewrite same_node_sibling. simpl. by destruct (bool_decide (fidx f = i)).
    + by rewrite same_node_length by (simpl; rewrite length_app; simpl; lia).
Qed.

(** The arrow test of [isInReturnContext] succeeds exactly when the walk
    entered the arrow function through its body. *)
Lemma arrow_test h pre f rest params body :
  fnode f = ArrowFunctionExpression params body →
  let node := mkLoc h (pre ++ f :: rest) in
  let bodyNode := child_loc (mkLoc (fnode f) rest) (length params) body in
  reaches_body bodyNode (here node) (up node) || same_node bodyNode node
  = bool_decide (fidx f = length params).
Proof.
  intros Hf. simpl. unfold child_loc. simpl.
  rewrite reaches_body_spec. destruct pre as [|g pre]; simpl.
  - rewrite same_node_sibling. simpl. apply bool_decide_ext.
    split; by intros ->.
  - rewrite same_node_length by (simpl; rewrite length_app; simpl; lia).
    by rewrite orb_false_r.
Qed.

Lemma return_context_loop_delegated h pre anc :
  return_context_loop (mkLoc h (pre ++ anc)) anc = delegated anc.
Proof.
  revert pre. induction anc as [|f rest IH]; intros pre; [done|].
  specialize (IH (pre ++ [f])). rewrite <- app_assoc in IH. simpl in IH.
  simpl. destruct (fnode f) eqn:Hf; simpl; try done.
  pose proof (arrow_test h pre f rest params n Hf) as Ha. simpl in Ha.
  rewrite Hf in Ha. unfold enters_body. rewrite Hf.
  destruct (reaches_body _ _ _); simpl in *.
  - by rewrite <- Ha.
  - destruct (same_node _ _); simpl in *; by rewrite <- Ha.
Qed.

Lemma isInReturnContext_delegated node :
  isInReturnContext node = delegated (up node).
Proof.
  destruct node as [h u]. apply (return_context_loop_delegated h [] u).
Qed.

(** ** The walk of [isImmediatelyHandled] along a method chain *)

Lemma handled_step obj m args rest :
  m ∈ HANDLED_METHODS →
  immediately_handled_loop (step_frames obj m args ++ rest) = true.
Proof.
  intros Hm. simpl. unfold includes. rewrite bool_decide_eq_true_2 by done.
  unfold child_loc. simpl. by rewrite same_node_sibling.
Qed.

Lemma unhandled_step obj m args rest :
  m ∉ HANDLED_METHODS →
  immediately_handled_loop (step_frames obj m args ++ rest)
  = immediately_handled_loop rest.
Proof.
  intros Hm. simpl. unfold includes. by rewrite bool_decide_eq_false_2 by done.
Qed.

Lemma step_is_handled_or_skipped obj m args rest :
  immediately_handled_loop (step_frames obj m args ++ rest) = true ∨
  immediately_handled_loop (step_frames obj m args ++ rest)
  = immediately_handled_loop rest.
Proof.
  destruct (decide (m ∈ HANDLED_METHODS)).
  - left. by apply handled_step.
  - right. by apply unhandled_step.
Qed.

(** A chain that ends in an invoked handling method is handled, whatever
    methods come before. *)
Lemma handled_chain ms h fs rest :
  method_steps (ms ++ [h]) fs → h ∈ HANDLED_METHODS →
  immediately_handled_loop (fs ++ rest) = true.
Proof.
  intros Hsteps Hh. remember (ms ++ [h]) as names eqn:Hn.
  revert ms Hn. induction Hsteps as [|obj m args ms' fs Hs IH]; intros ms Hn.
  - by destruct ms.
  - rewrite <- app_assoc.
    destruct ms as [|m0 ms]; simplify_eq/=.
    + by apply handled_step.
    + destruct (step_is_handled_or_skipped obj m0 args (fs ++ rest))
        as [Ht|Hskip]; [done|].
      simpl in Hskip. rewrite Hskip. by apply (IH ms).
Qed.

(** A chain without handling methods leaves the decision to what encloses
    it. *)
Lemma unhandled_chain ms fs rest :
  method_steps ms fs → Forall (λ m, m ∉ HANDLED_METHODS) ms →
  immediately_handled_loop (fs ++ rest) = immediately_handled_loop rest.
Proof.
  induction 1 as [|obj m args ms fs Hs IH]; [done|].
  intros [Hm Hms]%Forall_cons. rewrite <- app_assoc.
  rewrite unhandled_step by done. by apply IH.
Qed.

(** ** One visit *)

Lemma factory_name_cases name :
  is_factory_name name = true →
  name = "ok" ∨ name = "err" ∨ name = "okAsync" ∨ name = "errAsync".
Proof.
  unfold is_factory_name, includes. rewrite bool_decide_eq_true.
  rewrite !elem_of_cons, elem_of_nil. naive_solver.
Qed.

Lemma factory_not_heuristic name :
  is_factory_name name = true → is_heuristic_name name = false.
Proof.
  intros [-> | [-> | [-> | ->]]]%factory_name_cases; reflexivity.
Qed.

Lemma visit_reports st node :
  reports (visit st node) =
  reports st ++
  (if flagged (neverthrowImports st) node
   then [mkDiagnostic (path node) MESSAGE] else []).
Proof.
  unfold visit, flagged. destruct node as [h u].
  destruct h as [b|sp src|im lo|lo|lo|nm|v|c args|c args|o p|arg|ps b|ps b|ps b|b|e|t ks];
    simpl; try (rewrite andb_false_r; simpl; by rewrite app_nil_r).
  - unfold visit_CallExpression. simpl.
    destruct (isInReturnContext _); simpl; [by rewrite app_nil_r|].
    destruct (isImmediatelyHandled _); simpl; [by rewrite app_nil_r|].
    destruct c; simpl; rewrite ?app_nil_r; try done.
    fold (is_factory_name name). fold (is_heuristic_name name).
    destruct (is_factory_name name) eqn:Hf; simpl.
    + rewrite (factory_not_heuristic _ Hf), orb_false_r.
      destruct (isNeverthrowImport _ _); simpl; by rewrite ?app_nil_r.
    + destruct (is_heuristic_name name); simpl; by rewrite ?app_nil_r.
  - unfold visit_NewExpression. simpl.
    destruct (isInReturnContext _); simpl; [by rewrite app_nil_r|].
    destruct (isImmediatelyHandled _); simpl; [by rewrite app_nil_r|].
    destruct c; simpl; rewrite ?app_nil_r; try done.
    destruct (_ || _); simpl; by rewrite ?app_nil_r.
  - rewrite andb_false_r. simpl. rewrite app_nil_r.
    unfold visit_ExpressionStatement. simpl.
    destruct (isInReturnContext _); simpl; [done|].
    destruct e as [| | | | | | |c args| | | | | | | | |]; try done.
    destruct c; try done. by destruct (_ && _).
Qed.

Lemma visit_neverthrowImports st node :
  neverthrowImports (visit st node) = visit_imports (neverthrowImports st) node.
Proof.
  unfold visit, visit_imports. destruct node as [h u].
  destruct h as [b|sp src|im lo|lo|lo|nm|v|c args|c args|o p|arg|ps b|ps b|ps b|b|e|t ks];
    simpl; try done.
  - unfold visit_CallExpression. simpl.
    destruct (isInReturnContext _); [done|].
    destruct (isImmediatelyHandled _); [done|].
    destruct c; simpl; try done.
    destruct (_ && _); simpl; by destruct (_ && _).
  - unfold visit_NewExpression. simpl.
    destruct (isInReturnContext _); [done|].
    destruct (isImmediatelyHandled _); [done|].
    destruct c; simpl; try done. by destruct (_ || _).
  - unfold visit_ExpressionStatement. simpl.
    destruct (isInReturnContext _); [done|].
    destruct e as [| | | | | | |c args| | | | | | | | |]; try done.
    destruct c; try done. by destruct (_ && _).
Qed.

(** ** A whole traversal *)

Lemma run_locs_reports st ls :
  reports (run_locs st ls) = reports st ++ emitted (neverthrowImports st) ls.
Proof.
  revert st. induction ls as [|l ls IH]; intros st; simpl.
  - by rewrite app_nil_r.
  - unfold run_locs in *. rewrite IH, visit_reports, visit_neverthrowImports.
    by rewrite <- app_assoc.
Qed.

Lemma run_locs_imports st ls :
  neverthrowImports (run_locs st ls) = foldl visit_imports (neverthrowImports st) ls.
Proof.
  revert st. induction ls as [|l ls IH]; intros st; simpl; [done|].
  unfold run_locs in *. by rewrite IH, visit_neverthrowImports.
Qed.

Lemma emitted_app imports ls1 ls2 :
  emitted imports (ls1 ++ ls2) =
  emitted imports ls1 ++ emitted (foldl visit_imports imports ls1) ls2.
Proof.
  revert imports. induction ls1 as [|l ls1 IH]; intros imports; simpl; [done|].
  by rewrite IH, <- app_assoc.
Qed.

Lemma emitted_elem_of imports ls d :
  d ∈ emitted imports ls → anchor d ∈ path <$> ls ∧ message d = MESSAGE.
Proof.
  revert imports. induction ls as [|l ls IH]; intros imports; simpl.
  - by intros ?%elem_of_nil.
  - intros [Hd|Hd]%elem_of_app.
    + destruct (flagged imports l); [|by apply elem_of_nil in Hd].
      apply list_elem_of_singleton in Hd as ->. simpl. split; [left|done].
    + destruct (IH _ Hd) as [Ha Hm]. split; [by right|done].
Qed.

Lemma count_at_app p ds1 ds2 :
  count_at p (ds1 ++ ds2) = count_at p ds1 + count_at p ds2.
Proof. unfold count_at. by rewrite filter_app, length_app. Qed.

Lemma count_at_outside p imports ls :
  p ∉ path <$> ls → count_at p (emitted imports ls) = 0.
Proof.
  intros Hp. unfold count_at.
  destruct (filter _ _) as [|d ds] eqn:Hf; [done|]. exfalso.
  assert (Hd : d ∈ filter (λ d, anchor d = p) (emitted imports ls))
    by (rewrite Hf; left).
  apply list_elem_of_filter in Hd as [<- Hd].
  by apply emitted_elem_of in Hd as [Hd _].
Qed.

Lemma count_at_emitted imports pre node post :
  NoDup (path <$> pre ++ node :: post) →
  count_at (path node) (emitted imports (pre ++ node :: post))
  = if flagged (foldl visit_imports imports pre) node then 1 else 0.
Proof.
  rewrite fmap_app, fmap_cons. intros Hnd.
  apply NoDup_app in Hnd as (_ & Hpre & [Hnode _]%NoDup_cons).
  rewrite emitted_app, count_at_app. simpl. rewrite count_at_app.
  rewrite !count_at_outside; [|done|].
  2:{ intros Hin. by apply (Hpre _ Hin); left. }
  simpl. rewrite Nat.add_0_r.
  destruct (flagged _ _); [|done].
  unfold count_at. rewrite filter_cons_True by done. done.
Qed.

Lemma count_at_visited_from imports root pre node post :
  traverse [] root = pre ++ node :: post →
  count_at (path node) (reports (run (mkState imports []) root))
  = if flagged (foldl visit_imports imports pre) node then 1 else 0.
Proof.
  intros Ht. unfold run. rewrite run_locs_reports. simpl.
  rewrite Ht. apply count_at_emitted. rewrite <- Ht. apply traverse_NoDup.
Qed.

Lemma count_at_visited root pre node post :
  traverse [] root = pre ++ node :: post →
  count_at (path node) (lint root)
  = if flagged (tracker_before pre) node then 1 else 0.
Proof.
  intros Ht. unfold lint, tracker_before. rewrite run_locs_imports.
  by apply (count_at_visited_from _ _ _ _ post).
Qed.

Lemma count_at_le_1 imports root p :
  (count_at p (reports (run (mkState imports []) root)) ≤ 1)%nat.
Proof.
  destruct (decide (p ∈ path <$> traverse [] root)) as [Hin|Hout].
  - apply list_elem_of_fmap in Hin as (node & -> & Hnode).
    apply list_elem_of_split in Hnode as (pre & post & Ht).
    rewrite (count_at_visited_from _ _ _ _ _ Ht). destruct (flagged _ _); lia.
  - unfold run. rewrite run_locs_reports. simpl.
    rewrite count_at_outside by done. lia.
Qed.

(** ** Classification and positions *)

Lemma flagged_classified imports node :
  flagged imports node =
  negb (delegated (up node)) && negb (immediately_handled_loop (up node)) &&
  (producing imports (here node) || heuristic_call (here node)).
Proof.
  unfold flagged. rewrite isInReturnContext_delegated. unfold isImmediatelyHandled.
  f_equal. destruct node as [h u]. simpl.
  destruct h as [b|sp src|im lo|lo|lo|nm|v|c args|c args|o p|arg|ps b|ps b|ps b|b|e|t ks];
    try done; destruct c; simpl; by rewrite ?orb_false_r.
Qed.

Lemma statement_position_not_delegated anc :
  statement_position anc = true → delegated anc = false.
Proof.
  destruct anc as [|f [|g rest]]; try done. simpl.
  destruct (fnode f); try done.
  destruct (fnode g); try done. by destruct rest.
Qed.

Lemma statement_position_not_handled anc :
  statement_position anc = true → immediately_handled_loop anc = false.
Proof.
  destruct anc as [|f [|g rest]]; try done. simpl.
  by destruct (fnode f).
Qed.

Lemma delegated_steps ms fs rest :
  method_steps ms fs → delegated (fs ++ rest) = delegated rest.
Proof.
  induction 1 as [|obj m args ms fs Hs IH]; [done|].
  by rewrite <- app_assoc.
Qed.

Lemma delegated_through ws f rest :
  Forall (λ w, is_boundary (fnode w) = false) ws →
  is_return (fnode f) = true ∨ enters_body f = true →
  delegated (ws ++ f :: rest) = true.
Proof.
  intros Hws Hf. induction Hws as [|w ws Hw _ IH]; simpl.
  - destruct Hf as [->|He]; [done|].
    unfold enters_body in *. destruct (fnode f); try done.
    simpl. by rewrite He.
  - rewrite IH, Hw, orb_true_r.
    by destruct (is_return (fnode w)), (is_arrow (fnode w)).
Qed.

Lemma delegated_stops ws b rest1 rest2 :
  is_boundary (fnode b) = true →
  delegated (ws ++ b :: rest1) = delegated (ws ++ b :: rest2).
Proof.
  intros Hb. induction ws as [|w ws IH]; simpl.
  - rewrite Hb. by destruct (fnode b).
  - by rewrite IH.
Qed.

Lemma delegated_plain ws b rest :
  Forall (λ w, is_return (fnode w) = false ∧ enters_body w = false) ws →
  is_boundary (fnode b) = true →
  delegated (ws ++ b :: rest) = false.
Proof.
  intros Hws Hb. induction Hws as [|w ws [Hr Ha] _ IH]; simpl.
  - rewrite Hb. by destruct (fnode b).
  - rewrite Hr, Ha, IH.
    by destruct (is_arrow (fnode w)), (is_boundary (fnode w)).
Qed.

Lemma not_excluded_spec name :
  not_excluded name = false ↔ name ∈ EXCLUDED_NAMES.
Proof.
  unfold not_excluded, EXCLUDED_NAMES. rewrite !elem_of_cons, elem_of_nil.
  repeat match goal with
  | |- context [String.eqb name ?s] =>
      destruct (String.eqb_spec name s) as [->|?]
  end; simpl; naive_solver.
Qed.

Lemma excluded_not_flagged name :
  name ∈ EXCLUDED_NAMES →
  is_heuristic_name name = false ∧ is_factory_name name = false.
Proof.
  unfold EXCLUDED_NAMES. rewrite !elem_of_cons, elem_of_nil.
  intros [-> | [-> | [-> | [-> | [-> | [-> | [-> | []]]]]]]]; by vm_compute.
Qed.

Lemma result_method_not_handled m :
  m ∈ RESULT_METHODS → m ∉ HANDLED_METHODS.
Proof.
  unfold RESULT_METHODS, HANDLED_METHODS. rewrite !elem_of_cons, !elem_of_nil.
  intros [-> | [-> | [-> | [-> | [-> | [-> | [-> | [-> | []]]]]]]]];
    intros [? | [? | [? | []]]]; discriminate.
Qed.

Lemma method_steps_frame ms fs f :
  method_steps ms fs → f ∈ fs →
  (∀ imports, producing imports (fnode f) = false) ∧
  heuristic_call (fnode f) = false.
Proof.
  induction 1 as [|obj m args ms fs Hs IH]; [by intros ?%elem_of_nil|].
  unfold step_frames. simpl. rewrite !elem_of_cons.
  intros [-> | [-> | Hf]]; by auto.
Qed.

Lemma delegated_position_not_flagged imports node :
  in_delegated_position (up node) → flagged imports node = false.
Proof.
  intros (ws & f & rest & Hup & Hws & Hf).
  rewrite flagged_classified, Hup, delegated_through; done.
Qed.

Lemma followed_by_handler_not_flagged imports node :
  followed_by_handler (up node) → flagged imports node = false.
Proof.
  intros (ms & h & fs & rest & Hup & Hsteps & _ & Hh).
  rewrite flagged_classified, Hup, (handled_chain ms h) by done.
  by rewrite andb_false_r.
Qed.

Lemma statement_flagged imports node :
  bare_statement node = true →
  flagged imports node
  = producing imports (here node) || heuristic_call (here node).
Proof.
  intros Hs. rewrite flagged_classified.
  by rewrite statement_position_not_delegated, statement_position_not_handled.
Qed.

Lemma single_diagnostic p ds :
  count_at p ds = 1 → (∀ d, d ∈ ds → message d = MESSAGE) →
  filter (λ d, anchor d = p) ds = [mkDiagnostic p MESSAGE].
Proof.
  unfold count_at. intros Hc Hm.
  destruct (filter _ ds) as [|d [|d' ds']] eqn:Hf; try done.
  assert (Hd : d ∈ filter (λ d, anchor d = p) ds) by (rewrite Hf; left).
  apply list_elem_of_filter in Hd as [Ha Hd]. apply Hm in Hd.
  destruct d. simpl in *. by subst.
Qed.

Lemma reports_message imports root d :
  d ∈ reports (run (mkState imports []) root) → message d = MESSAGE.
Proof.
  unfold run. rewrite run_locs_reports. simpl.
  by intros [_ ?]%emitted_elem_of.
Qed.

Lemma run_Program imports body :
  run (mkState imports []) (Program body) = run (mkState ∅ []) (Program body).
Proof. unfold run. by rewrite traverse_unfold. Qed.

Example lint_unit_unbound : lint unit_unbound = [].
Proof. vm_compute. reflexivity. Qed.

Example lint_unit_heuristic :
  lint unit_heuristic = [mkDiagnostic [0; 0] MESSAGE].
Proof. vm_compute. reflexivity. Qed.

Example lint_unit_return : lint unit_return = [].
Proof. vm_compute. reflexivity. Qed.

Example lint_unit_arrow : lint unit_arrow = [].
Proof. vm_compute. reflexivity. Qed.

Example lint_unit_conditional :
  lint unit_conditional =
    [mkDiagnostic [0; 0; 1; 0; 1; 1] MESSAGE; mkDiagnostic [0; 1; 1; 1; 1] MESSAGE].
Proof. vm_compute. reflexivity. Qed.

Example lint_unit_heuristic_exempt : lint unit_heuristic_exempt = [].
Proof. vm_compute. reflexivity. Qed.

Example lint_unit_late_import : lint unit_late_import = [].
Proof. vm_compute. reflexivity. Qed.

Example lint_units_sample :
  lint_units ∅ [Program unit_importing; Program unit_plain]
  = [[mkDiagnostic [0; 1] MESSAGE]; []].
Proof. vm_compute. reflexivity. Qed.

(** * The claims *)

(** Closes [x ∉ l] for a literal [x] and a literal list [l]. *)
Local Ltac not_listed :=
  let H := fresh in
  intros H; vm_compute in H;
  repeat (apply elem_of_cons in H as [H | H]; [discriminate H|]);
  by apply elem_of_nil in H.

(** C1.  A factory call ([ok], [err], [okAsync], [errAsync] as a bare
    identifier) that stands as a statement of its own is reported exactly
    once when the tracker holds its name at the time the call is entered,
    and is neither reported nor classified as producing when it does not. *)
Theorem factory_statement_reported_iff_bound root pre node post name args :
  traverse [] root = pre ++ node :: post →
  here node = CallExpression (Identifier name) args →
  name ∈ ["ok"; "err"; "okAsync"; "errAsync"] →
  bare_statement node = true →
  (name ∈ tracker_before pre → count_at (path node) (lint root) = 1) ∧
  (name ∉ tracker_before pre →
     count_at (path node) (lint root) = 0 ∧
     producing (tracker_before pre) (here node) = false).
Proof.
  intros Ht Hhere Hname Hstmt.
  rewrite (count_at_visited _ _ _ _ Ht), statement_flagged, Hhere by done.
  assert (Hf : is_factory_name name = true) by by apply bool_decide_eq_true_2.
  simpl. rewrite Hf, (factory_not_heuristic _ Hf), orb_false_r. simpl.
  unfold isNeverthrowImport. split; intros Hb.
  - by rewrite bool_decide_eq_true_2.
  - by rewrite bool_decide_eq_false_2.
Qed.

Lemma factory_statement_reported_iff_bound_witness :
  count_at [0; 1] (lint unit_three) = 1 ∧
  count_at [0; 0] (lint unit_unbound) = 0.
Proof.
  split.
  - apply (factory_statement_reported_iff_bound unit_three
             (before unit_three 10) (visited unit_three 10)
             (after unit_three 10) "ok" [Identifier "x"]);
      [reflexivity | reflexivity | by left | reflexivity |].
    refine (bool_decide_unpack _ _). vm_compute. exact I.
  - apply (factory_statement_reported_iff_bound unit_unbound
             (before unit_unbound 2) (visited unit_unbound 2)
             (after unit_unbound 2) "ok" [Identifier "x"]);
      [reflexivity | reflexivity | by left | reflexivity |].
    refine (proj1 (bool_decide_eq_false _) _). vm_compute. reflexivity.
Defined.

(** C2.  A producing call followed, directly or after any number of
    transforming method calls, by a handling method that is invoked is not
    reported. *)
Theorem handled_chain_not_reported root pre node post :
  traverse [] root = pre ++ node :: post →
  producing (tracker_before pre) (here node) = true →
  followed_by_handler (up node) →
  isImmediatelyHandled node = true ∧ count_at (path node) (lint root) = 0.
Proof.
  intros Ht _ Hchain. split.
  - destruct Hchain as (ms & h & fs & rest & Hup & Hsteps & _ & Hh).
    unfold isImmediatelyHandled. rewrite Hup. by apply (handled_chain ms h).
  - by rewrite (count_at_visited _ _ _ _ Ht), followed_by_handler_not_flagged.
Qed.

Lemma handled_chain_not_reported_witness :
  count_at [0; 0; 0; 0; 0; 0; 0; 1] (lint unit_chain_handled) = 0.
Proof.
  apply (handled_chain_not_reported unit_chain_handled
           (before unit_chain_handled 16) (visited unit_chain_handled 16)
           (after unit_chain_handled 16)); [reflexivity | by vm_compute |].
  exists ["map"; "andThen"], "unwrapOr",
    (step_frames chain0 "map" [Identifier "f"] ++
     step_frames chain1 "andThen" [Identifier "g"] ++
     step_frames chain2 "unwrapOr" [Identifier "d"] ++ []),
    (drop 6 (up (visited unit_chain_handled 16))).
  split_and!;
    [reflexivity | repeat constructor | repeat constructor | right; left].
Defined.

(** C3, as amended.  When the chain that follows a producing call consists
    of transforming steps and ends in a method that is not a handling one (a
    query such as [isOk]), and the chain as a whole (its last call, [top])
    is neither in a return context nor itself immediately handled, the
    producing call is reported exactly once, and nothing is reported at the
    member accesses and calls of the chain, the last call included. *)
Theorem query_chain_reported_at_producer
    root pre node post ms t fs top rest :
  traverse [] root = pre ++ node :: post →
  producing (tracker_before pre) (here node) = true →
  up node = fs ++ rest →
  method_steps (ms ++ [t]) fs →
  Forall (λ m, m ∈ RESULT_METHODS) ms →
  t ∉ HANDLED_METHODS →
  fnode <$> last fs = Some top →
  isInReturnContext (mkLoc top rest) = false →
  isImmediatelyHandled (mkLoc top rest) = false →
  filter (λ d, anchor d = path node) (lint root)
    = [mkDiagnostic (path node) MESSAGE] ∧
  ∀ a f b, fs = a ++ f :: b → count_at (map fidx (b ++ rest)) (lint root) = 0.
Proof.
  intros Ht Hprod Hup Hsteps Hms Hterm _ Hret Hhandled.
  rewrite isInReturnContext_delegated in Hret. simpl in Hret.
  unfold isImmediatelyHandled in Hhandled. simpl in Hhandled. split.
  - apply single_diagnostic; [|apply reports_message].
    rewrite (count_at_visited _ _ _ _ Ht), flagged_classified, Hup, Hprod.
    rewrite (delegated_steps _ _ _ Hsteps), (unhandled_chain _ _ _ Hsteps).
    + by rewrite Hret, Hhandled.
    + apply Forall_app. split; [|by constructor].
      eapply Forall_impl; [done|]. apply result_method_not_handled.
  - intros a f b ->.
    assert (Hin : mkLoc (fnode f) (b ++ rest) ∈ traverse [] root).
    { rewrite <- (app_nil_r (b ++ rest)).
      apply (traverse_ancestor node [] root a f (b ++ rest)).
      - rewrite Ht. set_solver.
      - by rewrite Hup, app_nil_r, <- app_assoc. }
    apply list_elem_of_split in Hin as (pre' & post' & Ht').
    change (map fidx (b ++ rest)) with (path (mkLoc (fnode f) (b ++ rest))).
    rewrite (count_at_visited _ _ _ _ Ht'), flagged_classified. simpl.
    destruct (method_steps_frame _ _ f Hsteps) as [Hp Hh]; [set_solver|].
    by rewrite Hp, Hh, andb_false_r.
Qed.

Lemma query_chain_reported_at_producer_witness :
  filter (λ d, anchor d = [0; 0; 0; 0; 0; 0; 0; 1]) (lint unit_chain_query)
    = [mkDiagnostic [0; 0; 0; 0; 0; 0; 0; 1] MESSAGE] ∧
  count_at [0; 1] (lint unit_chain_query) = 0.
Proof.
  pose proof (query_chain_reported_at_producer unit_chain_query
    (before unit_chain_query 16) (visited unit_chain_query 16)
    (after unit_chain_query 16) ["map"; "andThen"] "isOk"
    (step_frames chain0 "map" [Identifier "f"] ++
     step_frames chain1 "andThen" [Identifier "g"] ++
     step_frames chain2 "isOk" [] ++ [])
    (method chain2 "isOk" [])
    (drop 6 (up (visited unit_chain_query 16)))) as H.
  destruct H as [Hone Hnone];
    [reflexivity | by vm_compute | reflexivity | repeat constructor
    | repeat constructor | | reflexivity | reflexivity | reflexivity |].
  - not_listed.
  - split; [exact Hone|].
    exact (Hnone (step_frames chain0 "map" [Identifier "f"] ++
                  step_frames chain1 "andThen" [Identifier "g"] ++
                  [mkFrame (MemberExpression chain2 (Identifier "isOk")) 0])
                 (mkFrame (method chain2 "isOk" []) 0) [] eq_refl).
Defined.

(** C3, as written: every producing call whose chain ends in a method that
    is not a handling one is reported once.  A chain that is returned, or
    one that is an argument of a call that is handled in turn, refutes it:
    the producing call is then exempt. *)
Lemma every_query_chain_reported_fails : ¬ every_query_chain_reported.
Proof.
  intros Hall.
  pose proof (Hall unit_return_query
    (before unit_return_query 14) (visited unit_return_query 14)
    (after unit_return_query 14) [] "isOk"
    (step_frames chain0 "isOk" [] ++ [])
    (drop 2 (up (visited unit_return_query 14)))) as H.
  assert (Hzero : count_at (path (visited unit_return_query 14))
                    (lint unit_return_query) = 0) by by vm_compute.
  rewrite Hzero in H. discriminate H;
    [reflexivity | by vm_compute | reflexivity | repeat constructor
    | constructor |].
  not_listed.
Qed.

(** C4.  A producing call on the direct path to a return statement or to
    the expression body of an arrow function, through wrappers that are
    neither blocks nor function declarations or expressions, is delegated
    and not reported. *)
Theorem delegated_not_reported root pre node post :
  traverse [] root = pre ++ node :: post →
  producing (tracker_before pre) (here node) = true →
  in_delegated_position (up node) →
  isInReturnContext node = true ∧ count_at (path node) (lint root) = 0.
Proof.
  intros Ht _ Hpos. split.
  - destruct Hpos as (ws & f & rest & Hup & Hws & Hf).
    rewrite isInReturnContext_delegated, Hup. by apply delegated_through.
  - by rewrite (count_at_visited _ _ _ _ Ht), delegated_position_not_flagged.
Qed.

Lemma delegated_not_reported_witness :
  count_at [0; 0; 0; 0; 0; 1] (lint unit_return) = 0 ∧
  count_at [0; 0; 1; 1; 0; 1] (lint unit_arrow) = 0.
Proof.
  split.
  - apply (delegated_not_reported unit_return
             (before unit_return 14) (visited unit_return 14)
             (after unit_return 14)); [reflexivity | by vm_compute |].
    exists (take 2 (up (visited unit_return 14))),
      (mkFrame (ReturnStatement (Some (method (call "ok" [Identifier "x"])
                                          "map" [Identifier "g"]))) 0),
      (drop 3 (up (visited unit_return 14))).
    split_and!; [reflexivity | vm_compute; repeat constructor | by left].
  - apply (delegated_not_reported unit_arrow
             (before unit_arrow 16) (visited unit_arrow 16)
             (after unit_arrow 16)); [reflexivity | by vm_compute |].
    exists (take 2 (up (visited unit_arrow 16))),
      (mkFrame (ArrowFunctionExpression [Identifier "a"]
                  (method (call "ok" [Identifier "a"]) "map"
                     [Identifier "g"])) 1),
      (drop 3 (up (visited unit_arrow 16))).
    split_and!; [reflexivity | vm_compute; repeat constructor | by right].
Defined.

(** C5, as amended.  A producing call inside a conditional or loop body
    (between the call and the nearest block or function boundary there is
    neither a return statement nor an arrow function entered through its
    body) that is not immediately handled is reported exactly once.  What
    lies beyond that boundary, an unrelated return of the enclosing function
    included, plays no part: the walk of [isInReturnContext] stops there. *)
Theorem conditional_body_reported root pre node post ws b rest :
  traverse [] root = pre ++ node :: post →
  producing (tracker_before pre) (here node) = true →
  up node = ws ++ b :: rest →
  Forall (λ w, is_return (fnode w) = false ∧ enters_body w = false) ws →
  is_boundary (fnode b) = true →
  isImmediatelyHandled node = false →
  count_at (path node) (lint root) = 1 ∧
  ∀ rest', isInReturnContext (mkLoc (here node) (ws ++ b :: rest')) = false.
Proof.
  intros Ht Hprod Hup Hws Hb Hhandled. split.
  - rewrite (count_at_visited _ _ _ _ Ht), flagged_classified, Hprod.
    unfold isImmediatelyHandled in Hhandled. rewrite Hhandled, Hup.
    by rewrite delegated_plain.
  - intros rest'. rewrite isInReturnContext_delegated. simpl.
    by apply delegated_plain.
Qed.

Lemma conditional_body_reported_witness :
  count_at [0; 0; 1; 0; 1; 1] (lint unit_conditional) = 1 ∧
  count_at [0; 1; 1; 1; 1] (lint unit_conditional) = 1.
Proof.
  split.
  - refine (proj1 (conditional_body_reported unit_conditional
             (before unit_conditional 16) (visited unit_conditional 16)
             (after unit_conditional 16)
             (take 1 (up (visited unit_conditional 16))) (mkFrame if_body 0)
             (drop 2 (up (visited unit_conditional 16))) _ _ _ _ _ _));
      [reflexivity | by vm_compute | reflexivity
      | vm_compute; repeat constructor | reflexivity | reflexivity].
  - refine (proj1 (conditional_body_reported unit_conditional
             (before unit_conditional 22) (visited unit_conditional 22)
             (after unit_conditional 22)
             (take 2 (up (visited unit_conditional 22)))
             (mkFrame function_body 1)
             (drop 3 (up (visited unit_conditional 22))) _ _ _ _ _ _));
      [reflexivity | by vm_compute | reflexivity
      | vm_compute; repeat constructor | reflexivity | reflexivity].
Defined.

(** C5, as written: every producing call inside a conditional or loop body
    and off any return path is reported once.  A call that is handled on
    the spot refutes it. *)
Lemma every_conditional_call_reported_fails : ¬ every_conditional_call_reported.
Proof.
  intros Hall.
  pose proof (Hall unit_conditional_handled
    (before unit_conditional_handled 18) (visited unit_conditional_handled 18)
    (after unit_conditional_handled 18)
    (take 3 (up (visited unit_conditional_handled 18)))
    (mkFrame if_body_handled 0)
    (drop 4 (up (visited unit_conditional_handled 18)))) as H.
  assert (Hzero : count_at (path (visited unit_conditional_handled 18))
                    (lint unit_conditional_handled) = 0) by by vm_compute.
  rewrite Hzero in H. discriminate H;
    [reflexivity | by vm_compute | | reflexivity
    | vm_compute; repeat constructor | reflexivity].
  exists (mkFrame (Other "IfStatement" [Identifier "c"; if_body_handled]) 1),
    "IfStatement", [Identifier "c"; if_body_handled].
  split_and!; [vm_compute; do 4 right; left | reflexivity | left].
Qed.

(** C6.  A construction of [Ok] or [Err] that stands as a statement of its
    own is reported exactly once, whatever the tracker holds before or
    during the unit, and every diagnostic of the rule carries the same
    message. *)
Theorem constructor_statement_reported imports root pre node post name args :
  traverse [] root = pre ++ node :: post →
  here node = NewExpression (Identifier name) args →
  name = "Ok" ∨ name = "Err" →
  bare_statement node = true →
  let ds := reports (run (mkState imports []) root) in
  filter (λ d, anchor d = path node) ds
    = [mkDiagnostic (path node)
         "Result must be handled with either match, unwrapOr, or _unsafeUnwrap"] ∧
  ∀ d, d ∈ ds →
    message d
    = "Result must be handled with either match, unwrapOr, or _unsafeUnwrap".
Proof.
  intros Ht Hhere Hname Hstmt ds. split; [|intros d; apply reports_message].
  apply single_diagnostic; [|intros d; apply reports_message].
  subst ds. rewrite (count_at_visited_from _ _ _ _ _ Ht).
  rewrite statement_flagged, Hhere by done.
  by destruct Hname as [-> | ->].
Qed.

Lemma constructor_statement_reported_witness :
  filter (λ d, anchor d = [0; 3]) (lint unit_three)
  = [mkDiagnostic [0; 3]
       "Result must be handled with either match, unwrapOr, or _unsafeUnwrap"].
Proof.
  apply (constructor_statement_reported ∅ unit_three
           (before unit_three 18) (visited unit_three 18)
           (after unit_three 18) "Ok" [Identifier "z"]);
    [reflexivity | reflexivity | by left | reflexivity].
Defined.

(** C7.  A call of a bare identifier whose lower-cased name contains
    "result" and is not on the exclusion list is reported exactly once when
    it stands as a statement of its own, whatever the tracker holds; a call
    whose callee name is on the exclusion list is never reported. *)
Theorem heuristic_statement_reported imports root pre node post name args :
  traverse [] root = pre ++ node :: post →
  here node = CallExpression (Identifier name) args →
  (str_includes "result" (toLowerCase name) = true →
   name ∉ EXCLUDED_NAMES →
   bare_statement node = true →
   count_at (path node) (reports (run (mkState imports []) root)) = 1) ∧
  (name ∈ EXCLUDED_NAMES →
   count_at (path node) (reports (run (mkState imports []) root)) = 0).
Proof.
  intros Ht Hhere. rewrite (count_at_visited_from _ _ _ _ _ Ht). split.
  - intros Hres Hex Hstmt. rewrite statement_flagged, Hhere by done. simpl.
    unfold is_heuristic_name. rewrite Hres.
    destruct (not_excluded name) eqn:He.
    + by rewrite orb_true_r.
    + by apply not_excluded_spec in He.
  - intros Hex. rewrite flagged_classified, Hhere. simpl.
    destruct (excluded_not_flagged _ Hex) as [-> ->].
    by rewrite andb_false_r.
Qed.

Lemma heuristic_statement_reported_witness :
  count_at [0; 0] (lint unit_heuristic) = 1 ∧
  count_at [0; 1] (lint unit_heuristic) = 0.
Proof.
  split.
  - apply (heuristic_statement_reported ∅ unit_heuristic
             (before unit_heuristic 2) (visited unit_heuristic 2)
             (after unit_heuristic 2) "getResult" []);
      [reflexivity | reflexivity | reflexivity | | reflexivity].
    not_listed.
  - apply (heuristic_statement_reported ∅ unit_heuristic
             (before unit_heuristic 5) (visited unit_heuristic 5)
             (after unit_heuristic 5) "checkResult" [Identifier "t"]);
      [reflexivity | reflexivity |].
    do 4 right. left.
Defined.

(** C8.  The diagnostics of a unit do not depend on the units the same
    rule instance went through before: entering the [Program] node empties
    the tracker, so the unit is linted as if by a fresh instance, whatever
    the tracker held and in whatever order two units are taken. *)
Theorem no_cross_unit_leakage (imports : gset string) (a b : list Node) :
  neverthrowImports (visit (mkState imports []) (mkLoc (Program b) [])) = ∅ ∧
  reports (run (mkState imports []) (Program b)) = lint (Program b) ∧
  lint_units imports [Program a; Program b] = [lint (Program a); lint (Program b)] ∧
  lint_units imports [Program b; Program a] = [lint (Program b); lint (Program a)].
Proof.
  split_and!; [done | by rewrite run_Program | |];
    simpl; unfold lint; by rewrite !(run_Program _ a), !(run_Program _ b).
Qed.

(** C9.  In one traversal no node is the anchor of more than one
    diagnostic, whatever the tracker held at the start. *)
Theorem one_diagnostic_per_node (imports : gset string) (root : Node)
    (p : list nat) :
  (count_at p (reports (run (mkState imports []) root)) ≤ 1)%nat.
Proof. apply count_at_le_1. Qed.

(** C10.  A call picked by the naming heuristic enjoys the same two
    exemptions as the factory and constructor producers: in a delegated
    position, or followed by an invoked handling method, it is not
    reported. *)
Theorem heuristic_call_exempted root pre node post name args :
  traverse [] root = pre ++ node :: post →
  here node = CallExpression (Identifier name) args →
  is_heuristic_name name = true →
  in_delegated_position (up node) ∨ followed_by_handler (up node) →
  count_at (path node) (lint root) = 0.
Proof.
  intros Ht _ _ Hpos. rewrite (count_at_visited _ _ _ _ Ht).
  destruct Hpos as [Hd | Hh].
  - by rewrite delegated_position_not_flagged.
  - by rewrite followed_by_handler_not_flagged.
Qed.

Lemma heuristic_call_exempted_witness :
  count_at [0; 0; 0; 0] (lint unit_heuristic_exempt) = 0 ∧
  count_at [0; 0; 0; 1] (lint unit_heuristic_exempt) = 0.
Proof.
  split.
  - apply (heuristic_call_exempted unit_heuristic_exempt
             (before unit_heuristic_exempt 4) (visited unit_heuristic_exempt 4)
             (after unit_heuristic_exempt 4) "getResult" []);
      [reflexivity | reflexivity | reflexivity |].
    left. exists [], (mkFrame (ReturnStatement (Some (call "getResult" []))) 0),
      (drop 1 (up (visited unit_heuristic_exempt 4))).
    split_and!; [reflexivity | constructor | by left].
  - apply (heuristic_call_exempted unit_heuristic_exempt
             (before unit_heuristic_exempt 9) (visited unit_heuristic_exempt 9)
             (after unit_heuristic_exempt 9) "getResult" []);
      [reflexivity | reflexivity | reflexivity |].
    right. exists [], "unwrapOr",
      (step_frames (call "getResult" []) "unwrapOr" [Identifier "d"] ++ []),
      (drop 2 (up (visited unit_heuristic_exempt 9))).
    split_and!; [reflexivity | repeat constructor | constructor | right; left].
Defined.

(** * Further properties of the helpers and of the rule *)

(** ** Strings *)

Lemma append_cons c (a b : string) :
  String.append (String c a) b = String c (String.append a b).
Proof. reflexivity. Qed.

Lemma append_empty (b : string) : String.append EmptyString b = b.
Proof. reflexivity. Qed.

Lemma prefix_spec n h :
  String.prefix n h = true ↔ ∃ s, h = String.append n s.
Proof.
  revert h. induction n as [|c n IH]; intros h; simpl.
  - split; [intros _; by exists h | intros _; by destruct h].
  - destruct h as [|d h].
    + split; [done|by intros [? ?]].
    + simpl. destruct (Ascii.ascii_dec c d) as [->|Hne].
      * rewrite IH. split; intros [t Ht]; exists t;
          rewrite append_cons in *; congruence.
      * split; [done|]. intros [t Ht]. rewrite append_cons in Ht. congruence.
Qed.

Lemma str_includes_nil n :
  str_includes n EmptyString = String.prefix n EmptyString.
Proof. unfold str_includes. apply orb_false_r. Qed.

Lemma str_includes_cons n c h :
  str_includes n (String c h)
  = String.prefix n (String c h) || str_includes n h.
Proof. reflexivity. Qed.

Lemma str_includes_spec n h :
  str_includes n h = true ↔
  ∃ p s, h = String.append p (String.append n s).
Proof.
  split.
  - induction h as [|c h IH].
    + rewrite str_includes_nil. intros [s Hs]%prefix_spec.
      by exists EmptyString, s.
    + rewrite str_includes_cons, orb_true_iff. intros [Hp|Hr].
      * apply prefix_spec in Hp as [s Hs]. by exists EmptyString, s.
      * destruct (IH Hr) as (p & s & ->). by exists (String c p), s.
  - intros (p & s & ->). induction p as [|c p IH].
    + rewrite append_empty.
      assert (Hp : String.prefix n (String.append n s) = true)
        by (apply prefix_spec; by exists s).
      destruct (String.append n s).
      * by rewrite str_includes_nil.
      * by rewrite str_includes_cons, Hp.
    + rewrite append_cons, str_includes_cons, IH. apply orb_true_r.
Qed.

Lemma append_assoc (a b c : string) :
  String.append (String.append a b) c = String.append a (String.append b c).
Proof.
  induction a as [|x a IH]; [done|]. rewrite !append_cons. by rewrite IH.
Qed.

Lemma str_includes_trans a b c :
  str_includes a b = true → str_includes b c = true → str_includes a c = true.
Proof.
  rewrite !str_includes_spec. intros (p & s & ->) (p' & s' & ->).
  exists (String.append p' p), (String.append s s').
  by rewrite !append_assoc.
Qed.

(** ** The helpers on their own *)

Lemma all_result_method_not_empty m :
  m ∈ ALL_RESULT_METHODS → m ≠ "".
Proof.
  unfold ALL_RESULT_METHODS, HANDLED_METHODS, RESULT_METHODS. simpl.
  rewrite !elem_of_cons, elem_of_nil. intros H ->.
  repeat (destruct H as [H|H]; [discriminate H|]). done.
Qed.

Lemma counts_as_result_method_Some m :
  counts_as_result_method (Some m) = includes ALL_RESULT_METHODS m.
Proof.
  unfold counts_as_result_method, includes. case_bool_decide as Hm.
  - apply all_result_method_not_empty in Hm.
    apply String.eqb_neq in Hm. by rewrite Hm.
  - apply andb_false_r.
Qed.

Lemma result_method_chain_loop_acc n c :
  result_method_chain_loop n c = c + result_method_chain_loop n 0.
Proof.
  revert c. induction n as [n IH] using Node_children_ind. intros c.
  destruct n as [b|sp src|im lo|lo|lo|nm|v|cl args|cl args|o p|arg|ps b|ps b|ps b|b|e|t ks];
    simpl; try lia.
  - destruct cl as [| | | | | | | | |o p| | | | | | |]; try lia.
    simpl in IH. apply Forall_cons in IH as [IHc _]. apply (IHc c).
  - simpl in IH. apply Forall_cons in IH as [IHo _].
    rewrite IHo. destruct (counts_as_result_method _); [|done].
    rewrite (IHo 1). lia.
Qed.

Lemma hasResultMethodChain_method obj m args :
  hasResultMethodChain (method obj m args)
  = includes ALL_RESULT_METHODS m || hasResultMethodChain obj.
Proof.
  unfold hasResultMethodChain, method.
  change (result_method_chain_loop
            (CallExpression (MemberExpression obj (Identifier m)) args) 0)
    with (result_method_chain_loop obj
            (if counts_as_result_method (Some m) then 1 else 0)).
  rewrite counts_as_result_method_Some, result_method_chain_loop_acc.
  destruct (includes _ _); simpl; [done|].
  by destruct (result_method_chain_loop obj 0).
Qed.

(** X1.  [isResultMethodCall] accepts exactly the member accesses that
    [isHandledMethodCall] accepts together with those naming a transforming
    method, and no member access is of both kinds. *)
Theorem result_method_call_partition (node : Node) :
  isResultMethodCall node
    = isHandledMethodCall node || names_transforming_method node ∧
  isHandledMethodCall node && names_transforming_method node = false.
Proof.
  unfold names_transforming_method.
  destruct node as [b|sp src|im lo|lo|lo|nm|v|c args|c args|o p|arg|ps b|ps b|ps b|b|e|t ks];
    try done.
  destruct p; try done. simpl.
  unfold includes, ALL_RESULT_METHODS. split.
  - apply eq_true_iff_eq.
    rewrite orb_true_iff, !bool_decide_eq_true, elem_of_app. done.
  - apply andb_false_iff. rewrite !bool_decide_eq_false.
    destruct (decide (name ∈ RESULT_METHODS)) as [Hr|Hr]; [left|by right].
    by apply result_method_not_handled.
Qed.

(** X2.  On a chain of method calls [hasResultMethodChain] answers whether
    one of the methods is a Result method, or the base has such a chain
    itself; the arguments play no part, and a chain on a plain call or on an
    identifier qualifies through its method names alone. *)
Theorem hasResultMethodChain_chain (base : Node)
    (steps : list (string * list Node)) :
  hasResultMethodChain (method_chain base steps)
    = existsb (λ step, includes ALL_RESULT_METHODS step.1) steps
      || hasResultMethodChain base ∧
  (∀ f args,
     hasResultMethodChain (method_chain (call f args) steps)
     = existsb (λ step, includes ALL_RESULT_METHODS step.1) steps) ∧
  (∀ x,
     hasResultMethodChain (method_chain (Identifier x) steps)
     = existsb (λ step, includes ALL_RESULT_METHODS step.1) steps).
Proof.
  assert (Hgen : ∀ base,
    hasResultMethodChain (method_chain base steps)
    = existsb (λ step, includes ALL_RESULT_METHODS step.1) steps
      || hasResultMethodChain base).
  { induction steps as [|[m args] steps IH]; intros b; [done|].
    simpl. rewrite IH, hasResultMethodChain_method.
    by destruct (includes _ m), (existsb _ steps), (hasResultMethodChain b). }
  split_and!; [apply Hgen | |]; intros; rewrite Hgen; apply orb_false_r.
Qed.

(** X3.  [isResultIdentifier] holds exactly of the identifiers whose name
    contains, with that very case, one of "Result", "Ok", "Err", "ok" and
    "err": the remaining three patterns of [NEVERTHROW_IMPORTS] add
    nothing. *)
Theorem isResultIdentifier_minimal (node : Node) :
  isResultIdentifier node = true ↔
  ∃ name pattern,
    node = Identifier name ∧ pattern ∈ MINIMAL_PATTERNS ∧
    str_includes pattern name = true.
Proof.
  destruct node as [b|sp src|im lo|lo|lo|nm|v|c args|c args|o p|arg|ps b|ps b|ps b|b|e|t ks];
    try (split; [done|by intros (? & ? & ? & _)]).
  unfold isResultIdentifier. rewrite existsb_exists. split.
  - intros (pat & Hin & Hinc). exists nm.
    apply list_elem_of_In in Hin.
    unfold NEVERTHROW_IMPORTS in Hin.
    rewrite !elem_of_cons, elem_of_nil in Hin.
    destruct Hin as [-> | [-> | [-> | [-> | [-> | [-> | [-> | [-> | []]]]]]]]].
    + exists "Result". split_and!; [done | by vm_compute; left | done].
    + exists "Ok". split_and!; [done | by vm_compute; right; left | done].
    + exists "Err". split_and!; [done | by vm_compute; do 2 right; left | done].
    + exists "ok". split_and!; [done | by vm_compute; do 3 right; left | done].
    + exists "err". split_and!; [done | by vm_compute; do 4 right; left | done].
    + exists "Result". split_and!; [done | by vm_compute; left |].
      by apply (str_includes_trans _ "ResultAsync").
    + exists "ok". split_and!; [done | by vm_compute; do 3 right; left |].
      by apply (str_includes_trans _ "okAsync").
    + exists "err". split_and!; [done | by vm_compute; do 4 right; left |].
      by apply (str_includes_trans _ "errAsync").
  - intros (name & pat & [= <-] & Hin & Hinc). exists pat. split; [|done].
    apply list_elem_of_In. unfold MINIMAL_PATTERNS in Hin.
    rewrite !elem_of_cons, elem_of_nil in Hin. unfold NEVERTHROW_IMPORTS.
    rewrite !elem_of_cons.
    destruct Hin as [-> | [-> | [-> | [-> | [-> | []]]]]]; auto 10.
Qed.

(** ** The tracker *)

Lemma elem_of_add_specifiers name specifiers imports :
  name ∈ foldl add_specifier imports specifiers ↔
  name ∈ imports ∨
  ∃ specifier, specifier ∈ specifiers ∧ specifier_local specifier = Some name.
Proof.
  revert imports. induction specifiers as [|sp sps IH]; intros imports; simpl.
  - split; [by left|]. intros [?|(? & ?%elem_of_nil & _)]; done.
  - rewrite IH. unfold add_specifier.
    destruct (specifier_local sp) as [local|] eqn:Hl.
    + rewrite elem_of_union, elem_of_singleton. split.
      * intros [[->|?]|(sp' & ? & ?)]; [right|by left|right].
        -- exists sp. split; [left|done].
        -- exists sp'. split; [by right|done].
      * intros [?|(sp' & [->|?]%elem_of_cons & Hsp)].
        -- left. by right.
        -- left. left. congruence.
        -- right. by exists sp'.
    + split.
      * intros [?|(sp' & ? & ?)]; [by left|right].
        exists sp'. split; [by right|done].
      * intros [?|(sp' & [->|?]%elem_of_cons & Hsp)]; [by left|congruence|].
        right. by exists sp'.
Qed.

Lemma elem_of_trackImport name node imports :
  name ∈ trackImport node imports ↔ name ∈ imports ∨ binds node name.
Proof.
  unfold binds.
  destruct node as [b|sp src|im lo|lo|lo|nm|v|c args|c args|o p|arg|ps b|ps b|ps b|b|e|t ks];
    simpl; try (split; [by left | by intros [?|(? & ? & ? & _)]]).
  destruct src as [| | | | | |[value|]| | | | | | | | | |];
    try (split; [by left | by intros [?|(? & ? & ? & _)]]).
  destruct (String.eqb_spec value "neverthrow") as [->|Hne].
  - rewrite elem_of_add_specifiers. split.
    + intros [?|(s & ? & ?)]; [by left|right]. by exists sp, s.
    + intros [?|(sp' & s & [= <-] & ? & ?)]; [by left|right]. by exists s.
  - split; [by left|]. intros [?|(? & ? & [= _ Hv] & _)]; [done|].
    by destruct Hne.
Qed.

(** X4.  After [trackImport] the tracker holds what it held before and, if
    the node is an import declaration whose source is the string
    "neverthrow", the local name of each named, default or namespace
    specifier; any other node, and an import from any other source, leaves
    the tracker as it was. *)
Theorem trackImport_tracks_local_names (node : Node) (imports : gset string) :
  (∀ name, name ∈ trackImport node imports ↔ name ∈ imports ∨ binds node name) ∧
  (∀ specifiers source,
     node = ImportDeclaration specifiers source →
     source ≠ Literal (Some "neverthrow") →
     trackImport node imports = imports) ∧
  ((∀ specifiers source, node ≠ ImportDeclaration specifiers source) →
   trackImport node imports = imports).
Proof.
  split_and!.
  - intros name. apply elem_of_trackImport.
  - intros specifiers source -> Hsrc. apply set_eq. intros name.
    rewrite elem_of_trackImport. split; [|by left].
    intros [?|(sp & s & [= _ ->] & _)]; done.
  - intros Hnode. apply set_eq. intros name.
    rewrite elem_of_trackImport. split; [|by left].
    intros [?|(sp & s & -> & _)]; [done|].
    by destruct (Hnode sp (Literal (Some "neverthrow"))).
Qed.

Lemma trackImport_tracks_local_names_witness :
  "success" ∈ trackImport alias_import ∅ ∧
  ("ok" ∉ trackImport alias_import ∅) ∧
  trackImport other_import ∅ = ∅.
Proof.
  pose proof (trackImport_tracks_local_names alias_import ∅) as (Hin & _ & _).
  pose proof (trackImport_tracks_local_names other_import ∅) as (_ & Hsrc & _).
  split_and!.
  - apply Hin. right.
    exists [ImportSpecifier "ok" "success"; ImportSpecifier "Err" "ErrorClass"],
      (ImportSpecifier "ok" "success").
    split_and!; [reflexivity | left | reflexivity].
  - intros [?%elem_of_empty|(sps & sp & [= <-] & Hsp & Hl)]%Hin; [done|].
    apply elem_of_cons in Hsp as [-> | Hsp]; [discriminate Hl|].
    apply elem_of_cons in Hsp as [-> | Hsp]; [discriminate Hl|].
    by apply elem_of_nil in Hsp.
  - by apply (Hsrc [ImportSpecifier "ok" "ok"]
                (Literal (Some "some-other-library"))).
Defined.

(** X5.  Tracking is insensitive to repetition and to order and never
    forgets: tracking a declaration twice is tracking it once, two
    declarations can be tracked in either order, and what was held stays
    held. *)
Theorem trackImport_set_like (a b : Node) (imports : gset string) :
  trackImport a (trackImport a imports) = trackImport a imports ∧
  trackImport a (trackImport b imports) = trackImport b (trackImport a imports) ∧
  imports ⊆ trackImport a imports.
Proof.
  split_and!.
  - apply set_eq. intros name. rewrite !elem_of_trackImport. naive_solver.
  - apply set_eq. intros name. rewrite !elem_of_trackImport. naive_solver.
  - intros name Hn. apply elem_of_trackImport. by left.
Qed.

(** ** The rule *)

Lemma elem_of_foldl_visit_imports name pre imports :
  name ∈ foldl visit_imports imports pre →
  name ∈ imports ∨ ∃ decl, decl ∈ pre ∧ binds (here decl) name.
Proof.
  revert imports. induction pre as [|l pre IH]; intros imports; simpl.
  - by left.
  - intros [Hn|(decl & Hd & Hb)]%IH.
    + unfold visit_imports in Hn.
      destruct (here l) eqn:Hl; try (by left).
      apply elem_of_trackImport in Hn as [?|Hb]; [by left|right].
      exists l. split; [left|by rewrite Hl].
    + right. exists decl. split; [by right|done].
Qed.

Lemma elem_of_emitted d imports ls :
  d ∈ emitted imports ls ↔
  ∃ pre l post,
    ls = pre ++ l :: post ∧
    flagged (foldl visit_imports imports pre) l = true ∧
    d = mkDiagnostic (path l) MESSAGE.
Proof.
  revert imports. induction ls as [|l ls IH]; intros imports; simpl.
  - split; [by intros ?%elem_of_nil|]. by intros ([|??] & ? & ? & ? & _).
  - rewrite elem_of_app, IH. split.
    + intros [Hd|(pre & l' & post & -> & Hf & ->)].
      * destruct (flagged imports l) eqn:Hf; [|by apply elem_of_nil in Hd].
        apply list_elem_of_singleton in Hd. by exists [], l, ls.
      * by exists (l :: pre), l', post.
    + intros ([|x pre] & l' & post & Heq & Hf & ->); simplify_eq/=.
      * left. rewrite Hf. left.
      * right. by exists pre, l', post.
Qed.


(** X6.  A factory call is reported only if, earlier in the traversal of
    the same unit, an import declaration from "neverthrow" bound that very
    name as a local name. *)
Theorem reported_factory_call_was_imported root pre node post name args :
  traverse [] root = pre ++ node :: post →
  here node = CallExpression (Identifier name) args →
  name ∈ ["ok"; "err"; "okAsync"; "errAsync"] →
  count_at (path node) (lint root) = 1 →
  ∃ decl, decl ∈ pre ∧ binds (here decl) name.
Proof.
  intros Ht Hhere Hname Hcount.
  rewrite (count_at_visited _ _ _ _ Ht), flagged_classified, Hhere in Hcount.
  assert (Hf : is_factory_name name = true) by by apply bool_decide_eq_true_2.
  simpl in Hcount. rewrite Hf, (factory_not_heuristic _ Hf), orb_false_r in Hcount.
  simpl in Hcount. unfold isNeverthrowImport in Hcount.
  case_bool_decide as Hin; [|by rewrite !andb_false_r in Hcount].
  unfold tracker_before in Hin. rewrite run_locs_imports in Hin. simpl in Hin.
  apply elem_of_foldl_visit_imports in Hin as [?%elem_of_empty|?]; done.
Qed.

Lemma reported_factory_call_was_imported_witness :
  ∃ decl, decl ∈ before unit_three 10 ∧ binds (here decl) "ok".
Proof.
  apply (reported_factory_call_was_imported unit_three
           (before unit_three 10) (visited unit_three 10)
           (after unit_three 10) "ok" [Identifier "x"]);
    [reflexivity | reflexivity | by left | by vm_compute].
Defined.

(** X7.  The diagnostics of a unit are exactly these: one, with the fixed
    message, for each visited node that is a producing construct under the
    tracker of that moment or a call picked by the naming heuristic, and
    for which neither [isInReturnContext] nor [isImmediatelyHandled]
    holds. *)
Theorem diagnostic_iff_unexempted_producer (root : Node) (d : Diagnostic) :
  d ∈ lint root ↔
  ∃ pre node post,
    traverse [] root = pre ++ node :: post ∧
    d = mkDiagnostic (path node)
          "Result must be handled with either match, unwrapOr, or _unsafeUnwrap" ∧
    isInReturnContext node = false ∧
    isImmediatelyHandled node = false ∧
    (producing (tracker_before pre) (here node) = true ∨
     heuristic_call (here node) = true).
Proof.
  unfold lint, run. rewrite run_locs_reports. simpl. rewrite elem_of_emitted.
  assert (Hfl : ∀ pre node,
    flagged (foldl visit_imports ∅ pre) node = true ↔
    isInReturnContext node = false ∧ isImmediatelyHandled node = false ∧
    (producing (tracker_before pre) (here node) = true ∨
     heuristic_call (here node) = true)).
  { intros pre node. unfold tracker_before. rewrite run_locs_imports. simpl.
    rewrite flagged_classified, isInReturnContext_delegated.
    unfold isImmediatelyHandled.
    rewrite !andb_true_iff, !negb_true_iff, orb_true_iff. naive_solver. }
  split.
  - intros (pre & node & post & Ht & Hf & ->). exists pre, node, post.
    apply Hfl in Hf. naive_solver.
  - intros (pre & node & post & Ht & -> & Hr & Hh & Hp). exists pre, node, post.
    split_and!; [done| |done]. apply Hfl. done.
Qed.

(** X8.  Classification goes by the literal callee name alone: a call whose
    callee is not a bare identifier (a method call, a namespace-qualified
    call), a call of an identifier that is neither one of the four factory
    names nor matched by the heuristic (an alias of a factory), a
    construction of anything but a bare [Ok] or [Err] (an aliased
    constructor) and every node that is no call or construction are never
    reported, whatever the tracker holds. *)
Theorem only_literal_names_reported imports root pre node post :
  traverse [] root = pre ++ node :: post →
  match here node with
  | CallExpression (Identifier name) _ =>
      includes ["ok"; "err"; "okAsync"; "errAsync"] name = false ∧
      (str_includes "result" (toLowerCase name) = false ∨
       name ∈ EXCLUDED_NAMES)
  | NewExpression (Identifier name) _ => name ≠ "Ok" ∧ name ≠ "Err"
  | _ => True
  end →
  count_at (path node) (reports (run (mkState imports []) root)) = 0.
Proof.
  intros Ht Hshape. rewrite (count_at_visited_from _ _ _ _ _ Ht).
  rewrite flagged_classified.
  destruct (here node) as [b|sp src|im lo|lo|lo|nm|v|c args|c args|o p|arg|ps b|ps b|ps b|b|e|t ks];
    simpl; rewrite ?andb_false_r; try done.
  - destruct c; simpl; rewrite ?andb_false_r; try done.
    destruct Hshape as [Hf Hh]. unfold is_factory_name, is_heuristic_name.
    rewrite Hf. simpl.
    destruct Hh as [-> | Hex]; [by rewrite andb_false_r|].
    apply not_excluded_spec in Hex. by rewrite Hex, !andb_false_r.
  - destruct c; simpl; rewrite ?andb_false_r; try done.
    destruct Hshape as [Hok Herr].
    apply String.eqb_neq in Hok, Herr. by rewrite Hok, Herr, andb_false_r.
Qed.

Lemma only_literal_names_reported_witness :
  count_at [0; 1] (lint unit_namespace) = 0 ∧
  count_at [0; 1] (lint unit_alias) = 0 ∧
  count_at [0; 2] (lint unit_alias) = 0.
Proof.
  split_and!.
  - apply (only_literal_names_reported ∅ unit_namespace
             (before unit_namespace 5) (visited unit_namespace 5)
             (after unit_namespace 5)); [reflexivity | exact I].
  - apply (only_literal_names_reported ∅ unit_alias
             (before unit_alias 6) (visited unit_alias 6)
             (after unit_alias 6)); [reflexivity |].
    split; [reflexivity | by left].
  - apply (only_literal_names_reported ∅ unit_alias
             (before unit_alias 10) (visited unit_alias 10)
             (after unit_alias 10)); [reflexivity |].
    split; discriminate.
Defined.


(** ** The two walks *)

(** X10.  [isInReturnContext] looks neither past the nearest function
    declaration, function expression or block statement among the ancestors
    nor at the node it is asked about: two nodes whose ancestors agree up to
    and including such a boundary get the same answer. *)
Theorem isInReturnContext_stops_at_boundary h h' ws b rest rest' :
  is_boundary (fnode b) = true →
  isInReturnContext (mkLoc h (ws ++ b :: rest))
  = isInReturnContext (mkLoc h' (ws ++ b :: rest')).
Proof.
  intros Hb. rewrite !isInReturnContext_delegated. simpl.
  by apply delegated_stops.
Qed.

Lemma isInReturnContext_stops_at_boundary_witness :
  isInReturnContext (visited unit_conditional 16)
  = isInReturnContext
      (mkLoc (Identifier "x")
         [mkFrame (ExpressionStatement (call "ok" [Literal None])) 0;
          mkFrame if_body 0;
          mkFrame (ReturnStatement None) 0]).
Proof.
  apply (isInReturnContext_stops_at_boundary
           (call "ok" [Literal None]) (Identifier "x")
           [mkFrame (ExpressionStatement (call "ok" [Literal None])) 0]
           (mkFrame if_body 0)
           (drop 2 (up (visited unit_conditional 16)))
           [mkFrame (ReturnStatement None) 0]).
  reflexivity.
Defined.

(** X11.  An arrow function neither delegates nor shields what sits in its
    parameters: for a node reached through an arrow function by another
    child than its body, with no return statement, arrow body or boundary
    in between, [isInReturnContext] answers as it does for the arrow
    function itself. *)
Theorem arrow_parameters_not_delegated h ws f rest params body :
  fnode f = ArrowFunctionExpression params body →
  fidx f ≠ length params →
  Forall (λ w, is_return (fnode w) = false ∧ enters_body w = false ∧
               is_boundary (fnode w) = false) ws →
  isInReturnContext (mkLoc h (ws ++ f :: rest))
  = isInReturnContext (mkLoc (fnode f) rest).
Proof.
  intros Hf Hidx Hws. rewrite !isInReturnContext_delegated. simpl.
  induction Hws as [|w ws (Hr & He & Hb) _ IH]; simpl.
  - unfold enters_body. rewrite Hf. simpl.
    by rewrite bool_decide_eq_false_2.
  - rewrite Hr, He, Hb, IH. by destruct (is_arrow (fnode w)).
Qed.

Lemma arrow_parameters_not_delegated_witness :
  isInReturnContext (visited unit_arrow_param 15)
  = isInReturnContext (visited unit_arrow_param 12).
Proof.
  apply (arrow_parameters_not_delegated (call "ok" [Literal None])
           [mkFrame default_value 1] (mkFrame arrow_with_default 0)
           (drop 2 (up (visited unit_arrow_param 15)))
           [default_value] (Identifier "a"));
    [reflexivity | simpl; lia | repeat constructor].
Defined.

Lemma immediately_handled_loop_cons f anc :
  immediately_handled_loop (f :: anc) =
  match fnode f with
  | MemberExpression _ _ =>
      isHandledMethodCall (fnode f) &&
      match anc with
      | g :: _ => is_call (fnode g) && bool_decide (fidx g = 0)
      | [] => false
      end
      || immediately_handled_loop anc
  | CallExpression _ _ => immediately_handled_loop anc
  | _ => false
  end.
Proof.
  simpl. destruct (fnode f) as [| | | | | | | | |o p| | | | | | |]; try done.
  simpl. destruct p as [| | | | |name| | | | | | | | | | |]; try done.
  unfold parent. simpl. destruct anc as [|g rest]; simpl.
  { by rewrite andb_false_r. }
  destruct (fnode g); simpl; rewrite ?andb_false_r; try done.
  unfold child_loc. simpl. rewrite same_node_sibling. simpl.
  replace (bool_decide (0 = fidx g)) with (bool_decide (fidx g = 0))
    by (apply bool_decide_ext; naive_solver).
  by destruct (includes _ _ && _).
Qed.

(** X12.  [isImmediatelyHandled] holds exactly when, climbing from the node
    through member accesses and calls only, one meets a member access that
    [isHandledMethodCall] accepts and that is the callee of the call right
    above it. *)
Theorem isImmediatelyHandled_iff (node : Loc) :
  isImmediatelyHandled node = true ↔
  ∃ links member invocation rest,
    up node = links ++ member :: invocation :: rest ∧
    Forall (λ f, is_chain_link (fnode f) = true) links ∧
    isHandledMethodCall (fnode member) = true ∧
    is_call (fnode invocation) = true ∧
    fidx invocation = 0.
Proof.
  unfold isImmediatelyHandled. generalize (up node) as anc. clear node.
  induction anc as [|f anc IH].
  - split; [done|]. by intros ([|??] & ? & ? & ? & ? & _).
  - rewrite immediately_handled_loop_cons. split.
    + assert (Hskip : is_chain_link (fnode f) = true →
        immediately_handled_loop anc = true →
        ∃ links member invocation rest,
          f :: anc = links ++ member :: invocation :: rest ∧
          Forall (λ f, is_chain_link (fnode f) = true) links ∧
          isHandledMethodCall (fnode member) = true ∧
          is_call (fnode invocation) = true ∧ fidx invocation = 0).
      { intros Hlink (links & m & c & rest & -> & Hl & Hm & Hc & Hi)%IH.
        exists (f :: links), m, c, rest. split_and!; try done.
        by constructor. }
      destruct (fnode f) eqn:Hf; try done.
      * intros Hloop. by apply Hskip.
      * rewrite orb_true_iff, andb_true_iff. intros [[Hm Hg]|Hloop].
        -- destruct anc as [|g rest]; [done|].
           apply andb_true_iff in Hg as [Hc Hi%bool_decide_eq_true].
           exists [], f, g, rest. rewrite Hf. by split_and!.
        -- by apply Hskip.
    + intros (links & m & c & rest & Heq & Hl & Hm & Hc & Hi).
      destruct links as [|l links]; simplify_eq/=.
      * destruct (fnode m); try done.
        by rewrite Hm, Hc, bool_decide_eq_true_2.
      * apply Forall_cons in Hl as [Hlink Hl].
        assert (Hrec : immediately_handled_loop
                         (links ++ m :: c :: rest) = true).
        { apply IH. by exists links, m, c, rest. }
        rewrite Hrec. destruct (fnode l); try done. apply orb_true_r.
Qed.

(** ** What does and does not count as handling *)

(** X13.  Naming a method without calling it handles nothing: a producing
    call that is the object of a member access, [unwrapOr] and the like
    included, is reported once when that member access is a statement of
    its own. *)
Theorem referenced_handler_does_not_handle
    root pre node post obj property i rest :
  traverse [] root = pre ++ node :: post →
  producing (tracker_before pre) (here node) = true →
  up node = mkFrame (MemberExpression obj property) i :: rest →
  statement_position rest = true →
  count_at (path node) (lint root) = 1.
Proof.
  intros Ht Hprod Hup Hrest.
  rewrite (count_at_visited _ _ _ _ Ht), flagged_classified, Hprod, Hup.
  rewrite immediately_handled_loop_cons. simpl.
  rewrite statement_position_not_delegated,
    statement_position_not_handled by done.
  destruct rest as [|g rest]; [done|].
  destruct rest as [|g' rest]; [done|]. simpl in Hrest.
  destruct (fnode g); try done. by rewrite andb_false_r.
Qed.

Lemma referenced_handler_does_not_handle_witness :
  count_at [0; 0; 1] (lint unit_referenced) = 1.
Proof.
  apply (referenced_handler_does_not_handle unit_referenced
           (before unit_referenced 11) (visited unit_referenced 11)
           (after unit_referenced 11) chain0 (Identifier "unwrapOr") 0
           (drop 1 (up (visited unit_referenced 11))));
    [reflexivity | by vm_compute | reflexivity | reflexivity].
Defined.

(** X14.  The walk of [isImmediatelyHandled] passes through enclosing
    calls whatever the position of the node in them: an argument of a call
    whose own result is followed by an invoked handling method is not
    reported, producing or not. *)
Theorem argument_of_handled_call_exempt
    imports root pre node post callee args i anc :
  traverse [] root = pre ++ node :: post →
  up node = mkFrame (CallExpression callee args) i :: anc →
  followed_by_handler anc →
  isImmediatelyHandled node = true ∧
  count_at (path node) (reports (run (mkState imports []) root)) = 0.
Proof.
  intros Ht Hup (ms & h & fs & rest & -> & Hsteps & _ & Hh).
  assert (Hhandled : isImmediatelyHandled node = true).
  { unfold isImmediatelyHandled. rewrite Hup, immediately_handled_loop_cons.
    simpl. by apply (handled_chain ms h). }
  split; [done|].
  rewrite (count_at_visited_from _ _ _ _ _ Ht). unfold flagged.
  by rewrite Hhandled, andb_false_r.
Qed.

Lemma argument_of_handled_call_exempt_witness :
  count_at [1; 0; 0; 0; 1] (lint unit_argument) = 0.
Proof.
  apply (argument_of_handled_call_exempt ∅ unit_argument
           (before unit_argument 14) (visited unit_argument 14)
           (after unit_argument 14) (Identifier "foo") [chain0] 1
           (drop 1 (up (visited unit_argument 14))));
    [reflexivity | reflexivity |].
  exists [], "unwrapOr",
    (step_frames (call "foo" [chain0]) "unwrapOr" [Identifier "d"] ++ []),
    (drop 3 (up (visited unit_argument 14))).
  split_and!; [reflexivity | repeat constructor | constructor | right; left].
Defined.

(** X15.  Passing a producing call to a function, or calling its result,
    does not handle it: when the call that encloses it is a statement of
    its own, the producing call is reported once. *)
Theorem argument_of_statement_call_reported
    root pre node post callee args i rest :
  traverse [] root = pre ++ node :: post →
  producing (tracker_before pre) (here node) = true →
  up node = mkFrame (CallExpression callee args) i :: rest →
  statement_position rest = true →
  count_at (path node) (lint root) = 1.
Proof.
  intros Ht Hprod Hup Hrest.
  rewrite (count_at_visited _ _ _ _ Ht), flagged_classified, Hprod, Hup.
  rewrite immediately_handled_loop_cons. simpl.
  by rewrite statement_position_not_delegated,
    statement_position_not_handled.
Qed.

Lemma argument_of_statement_call_reported_witness :
  count_at [1; 0; 1] (lint unit_passed) = 1.
Proof.
  apply (argument_of_statement_call_reported unit_passed
           (before unit_passed 12) (visited unit_passed 12)
           (after unit_passed 12) (Identifier "foo") [chain0] 1
           (drop 1 (up (visited unit_passed 12))));
    [reflexivity | by vm_compute | reflexivity | reflexivity].
Defined.

(** ** The further sample units, linted *)

Example lint_unit_namespace : lint unit_namespace = [].
Proof. vm_compute. reflexivity. Qed.

Example lint_unit_alias : lint unit_alias = [].
Proof. vm_compute. reflexivity. Qed.

Example lint_unit_arrow_param :
  lint unit_arrow_param = [mkDiagnostic [1; 0; 1; 0; 1] MESSAGE].
Proof. vm_compute. reflexivity. Qed.

Example lint_unit_referenced :
  lint unit_referenced = [mkDiagnostic [0; 0; 1] MESSAGE].
Proof. vm_compute. reflexivity. Qed.

Example lint_unit_argument : lint unit_argument = [].
Proof. vm_compute. reflexivity. Qed.

Example lint_unit_passed :
  lint unit_passed = [mkDiagnostic [1; 0; 1] MESSAGE].
Proof. vm_compute. reflexivity. Qed.

(** ** The helpers against the rule *)

(** X16.  [isResultConstructorCall] is the classification of the rule with
    the tracker left out: it accepts a node exactly when the rule takes it
    for a producing construct under some content of the tracker, and for
    constructions the two agree whatever the tracker holds. *)
Theorem isResultConstructorCall_ignores_tracker (n : Node) :
  (isResultConstructorCall n = true ↔ ∃ imports, producing imports n = true) ∧
  (∀ imports callee args,
     n = NewExpression callee args →
     producing imports n = isResultConstructorCall n).
Proof.
  split.
  - destruct n as [b|sp src|im lo|lo|lo|nm|v|c args|c args|o p|arg|ps b|ps b|ps b|b|e|t ks];
      simpl; try (split; [done | by intros [? ?]]).
    + destruct c; simpl; try (split; [done | by intros [? ?]]).
      fold (is_factory_name name). split.
      * intros Hf. exists {[ name ]}. rewrite Hf. simpl.
        apply bool_decide_eq_true_2. set_solver.
      * by intros [imports [? _]%andb_true_iff].
    + destruct c; simpl; try (split; [done | by intros [? ?]]).
      split; [by exists ∅ | by intros [_ ?]].
  - intros imports callee args ->. simpl. by destruct callee.
Qed.

Lemma isResultConstructorCall_ignores_tracker_witness :
  producing {[ "Ok" ]} (NewExpression (Identifier "Ok") [])
  = isResultConstructorCall (NewExpression (Identifier "Ok") []).
Proof.
  apply (proj2 (isResultConstructorCall_ignores_tracker
                  (NewExpression (Identifier "Ok") []))
           {[ "Ok" ]} (Identifier "Ok") []).
  reflexivity.
Defined.

Lemma delegated_position anc :
  delegated anc = true → in_delegated_position anc.
Proof.
  induction anc as [|f anc IH]; [done|]. simpl.
  destruct (is_return (fnode f)) eqn:Hr.
  { intros _. exists [], f, anc. split_and!; [done | constructor | by left]. }
  assert (Hnext : is_boundary (fnode f) = false →
                  delegated anc = true → in_delegated_position (f :: anc)).
  { intros Hb (ws & g & rest & -> & Hws & Hg)%IH.
    exists (f :: ws), g, rest. split_and!; [done | by constructor | done]. }
  destruct (is_arrow (fnode f)) eqn:Ha.
  - intros [He|Hd]%orb_true_iff.
    + exists [], f, anc. split_and!; [done | constructor | by right].
    + apply Hnext; [|done]. by destruct (fnode f).
  - destruct (is_boundary (fnode f)) eqn:Hb; [done|]. by apply Hnext.
Qed.

(** X17.  [isInReturnContext] holds exactly when, climbing from the node
    through ancestors that are neither function declarations, function
    expressions nor block statements, one meets a return statement or an
    arrow function entered through its body. *)
Theorem isInReturnContext_iff (node : Loc) :
  isInReturnContext node = true ↔
  ∃ ws f rest,
    up node = ws ++ f :: rest ∧
    Forall (λ w, is_boundary (fnode w) = false) ws ∧
    (is_return (fnode f) = true ∨ enters_body f = true).
Proof.
  rewrite isInReturnContext_delegated. split.
  - apply delegated_position.
  - intros (ws & f & rest & -> & Hws & Hf). by apply delegated_through.
Qed.
